(** * SurfaceArrayCreator (ACTS): binned surface arrays on cylinders and discs

    Shallow embedding of [Core/src/Tools/SurfaceArrayCreator.cpp].

    - [double] is IEEE binary64, Rocq's primitive [float];
    - [const Surface*] is [option Surface]: [None] is [nullptr], [Some a] is
      the object at address [a]; pointer comparison is equality on addresses;
    - [std::vector] is [list]; [v[i]] out of range and the dereference of a
      null entry of the input list are undefined behaviour, modelled as the
      fault [None] of the surrounding computation;
    - [size_t] arithmetic is written with its wrap-around modulo [2^64];
    - the collaborators that are consumed but not defined in this file
      (Surface, BinUtility/BinningData, BinnedArrayXD, the vector algebra and
      libm) are the fields of one record, [World]. *)

From Stdlib Require Import ZArith Floats.
From stdpp Require Import base option list gmap.

Set Default Proof Using "Type".

(** ** Data model *)

(** Addresses of [Surface] and [DetectorElementBase] objects. *)
Abbreviation Surface := nat (only parsing).
Abbreviation Element := nat (only parsing).
Abbreviation Transform3D := nat (only parsing).

Abbreviation SurfacePtr := (option Surface).
Abbreviation nullptr := (@None nat).

Record Vector3D := mkVector3D { vx : float; vy : float; vz : float }.

(** [a - b] on [Vector3D], componentwise in double precision. *)
Definition vsub (a b : Vector3D) : Vector3D :=
  mkVector3D (vx a - vx b) (vy a - vy b) (vz a - vz b).

Inductive BinningValue :=
  binX | binY | binZ | binR | binPhi | binRPhi | binH | binEta.

Inductive BinningOption := open | closed.

Record BinningData := mkBinningData {
  bd_option : BinningOption;
  bd_value  : BinningValue;
  bd_bins   : nat;
  bd_min    : float;
  bd_max    : float }.

Record BinUtility := mkBinUtility {
  binningData  : list BinningData;
  bu_transform : option Transform3D }.

(** Modelled from the spec: the constructors of [BinUtility], which are
    declared in [BinUtility.hpp]. A bin utility is the ordered composition of
    its axes; [BinUtility(bins, min, max, opt, value, transform)] has one
    axis, [BinUtility(bdata, transform)] wraps one given axis, and [+=]
    appends the axes of its argument. *)
Definition BinUtility1 (bins : nat) (bmin bmax : float) (opt : BinningOption)
    (value : BinningValue) (transform : option Transform3D) : BinUtility :=
  mkBinUtility [mkBinningData opt value bins bmin bmax] transform.

Definition BinUtilityOfData (bdata : BinningData)
    (transform : option Transform3D) : BinUtility :=
  mkBinUtility [bdata] transform.

Definition bu_add (u gbu : BinUtility) : BinUtility :=
  mkBinUtility (binningData u ++ binningData gbu) (bu_transform u).

(** Modelled from the spec: [BinningData(binR, minR, maxR)], the single-bin
    open axis spanning [[minR, maxR]]. *)
Definition BinningData0 (value : BinningValue) (bmin bmax : float)
    : BinningData :=
  mkBinningData open value 1 bmin bmax.

Abbreviation SurfaceVector := (list SurfacePtr).
Abbreviation SurfaceMatrix := (list SurfaceVector).
Abbreviation SurfaceGrid   := (list SurfaceMatrix).
Abbreviation V3Vector := (list Vector3D).
Abbreviation V3Matrix := (list V3Vector).

(** [BinnedArrayXD<const Surface*>]: the grid and its bin utility. *)
Record SurfaceArray := mkSurfaceArray {
  objectGrid    : SurfaceGrid;
  arrayUtility  : BinUtility }.

(** A bin triple [{{b0, b1, b2}}]. *)
Abbreviation BinTriple := (nat * nat * nat)%type.

(** What the code consumes from its collaborators. *)
Record World := mkWorld {
  (** [Surface::binningPosition(bValue)] *)
  binningPosition : Surface -> BinningValue -> Vector3D;
  (** [Surface::associatedDetectorElement()], possibly null *)
  associatedDetectorElement : Surface -> option Element;
  (** [BinUtility::binTriple(position)] *)
  binTriple : BinUtility -> Vector3D -> BinTriple;
  (** [BinningData::centerValue(bin)] *)
  centerValue : BinningData -> nat -> float;
  (** [BinnedArrayXD::objectCluster(binTriple)] *)
  objectCluster : SurfaceArray -> BinTriple -> list SurfacePtr;
  (** [Vector3D::mag()] *)
  mag : Vector3D -> float;
  (** libm *)
  cos : float -> float;
  sin : float -> float }.

(** ** Vectors of vectors *)

(** [size_t] values of container sizes. *)
Definition size_t (n : nat) : Z := Z.of_nat n mod 2 ^ 64.
Definition size_t_mul (a b : Z) : Z := (a * b) mod 2 ^ 64.

(** [sGrid[i2][i1][i0]] read. *)
Definition grid_get (g : SurfaceGrid) (i2 i1 i0 : nat) : option SurfacePtr :=
  m ← g !! i2; r ← m !! i1; r !! i0.

(** [sGrid[i2][i1][i0] = v]. *)
Definition grid_set (g : SurfaceGrid) (i2 i1 i0 : nat) (v : SurfacePtr)
    : option SurfaceGrid :=
  _ ← grid_get g i2 i1 i0;
  Some (alter (alter (<[i0 := v]>) i1) i2 g).

(** [v3Matrix[i1][i0]] read. *)
Definition v3_get (m : V3Matrix) (i1 i0 : nat) : option Vector3D :=
  r ← m !! i1; r !! i0.

(** A loop over a container whose body may fault. *)
Fixpoint foldM {S A : Type} (body : S -> A -> option S) (l : list A) (s : S)
    : option S :=
  match l with
  | [] => Some s
  | a :: l' => s' ← body s a; foldM body l' s'
  end.

(** ** completeBinning *)

(** [double minPath = 10e10] *)
Definition minPath0 : float := 100000000000%float.

(** The variables of [completeBinning] that live across its loops, and a
    ghost counter for the evaluations of [testPath]. *)
Record CBState := mkCBState {
  cb_grid         : SurfaceGrid;
  cb_binCompleted : nat;
  cb_testPaths    : nat }.

(** The variables of one pass of the loop over [sVector]. *)
Record CellState := mkCellState {
  cs_grid      : SurfaceGrid;
  cs_sentry    : SurfacePtr;
  cs_minPath   : float;
  cs_testPaths : nat }.

(** One call [bElement->registerNeighbours(neighbourElements)]. *)
Record RegisterCall := mkRegisterCall {
  rc_element    : Element;
  rc_neighbours : list Element }.

(** Modelled from the spec: [DetectorElementBase::registerNeighbours], which
    is declared in [DetectorElementBase.hpp]. It accepts a possibly empty
    ordered list of neighbour elements, and the last write wins if it is
    called twice. The store maps an element to its neighbour field. *)
Definition registerNeighbours (store : gmap Element (list Element))
    (c : RegisterCall) : gmap Element (list Element) :=
  <[rc_element c := rc_neighbours c]> store.

Definition registered (calls : list RegisterCall)
    : gmap Element (list Element) :=
  foldl registerNeighbours ∅ calls.

Section Creator.

Variable W : World.

(** [(sposition - sf->binningPosition(binR)).mag()] *)
Definition testPathOf (sposition : Vector3D) (sf : Surface) : float :=
  mag W (vsub sposition (binningPosition W sf binR)).

(** Body of [for (auto& sf : sVector)]. *)
Definition nearestStep (io1 io0 : nat) (sposition : Vector3D)
    (st : CellState) (p : SurfacePtr) : option CellState :=
  sf ← p;
  let testPath := testPathOf sposition sf in
  if (testPath <? cs_minPath st)%float then
    g' ← grid_set (cs_grid st) 0 io1 io0 (Some sf);
    Some (mkCellState g' (Some sf) testPath (S (cs_testPaths st)))
  else
    Some (mkCellState (cs_grid st) (cs_sentry st) (cs_minPath st)
            (S (cs_testPaths st))).

(** Body of [for (size_t io0 ...)]. *)
Definition completeCell (v3Matrix : V3Matrix) (sVector : SurfaceVector)
    (io1 : nat) (st : CBState) (io0 : nat) : option CBState :=
  sentry ← grid_get (cb_grid st) 0 io1 io0;
  sposition ← v3_get v3Matrix io1 io0;
  cs ← foldM (nearestStep io1 io0 sposition) sVector
         (mkCellState (cb_grid st) sentry minPath0 (cb_testPaths st));
  Some (mkCBState (cs_grid cs) (S (cb_binCompleted st)) (cs_testPaths cs)).

(** Body of [for (size_t io1 ...)]. *)
Definition completeRow (v3Matrix : V3Matrix) (sVector : SurfaceVector)
    (row0 : V3Vector) (st : CBState) (io1 : nat) : option CBState :=
  foldM (completeCell v3Matrix sVector io1) (seq 0 (length row0)) st.

Definition completeBinning (binUtility : BinUtility) (v3Matrix : V3Matrix)
    (sVector : SurfaceVector) (sGrid : SurfaceGrid) : option CBState :=
  let nSurfaces := size_t (length sVector) in
  row0 ← v3Matrix !! 0;
  let nGridPoints := size_t_mul (size_t (length v3Matrix))
                                (size_t (length row0)) in
  if decide (nGridPoints = nSurfaces) then
    Some (mkCBState sGrid 0 0)
  else
    foldM (completeRow v3Matrix sVector row0) (seq 0 (length v3Matrix))
      (mkCBState sGrid 0 0).

(** ** registerNeighbourHood *)

(** The vector [neighbourElements] after the [if] of one pass of the loop
    over [objectCluster]. *)
Definition neighbourElementsOf (bSurface : Surface) (nSurface : SurfacePtr)
    : list Element :=
  match nSurface with
  | Some n =>
      if decide (n ≠ bSurface) then
        match associatedDetectorElement W n with
        | Some e => [e]
        | None => []
        end
      else []
  | None => []
  end.

(** The calls [bElement->registerNeighbours(neighbourElements)] made for
    the bin [{{io0, io1, io2}}] holding [bSurface], in order. *)
Definition registerCell (sArray : SurfaceArray) (io2 io1 io0 : nat)
    (bSurface : SurfacePtr) : list RegisterCall :=
  match bSurface with
  | Some b =>
      match associatedDetectorElement W b with
      | Some bElement =>
          (λ nSurface, mkRegisterCall bElement (neighbourElementsOf b nSurface))
            <$> objectCluster W sArray (io0, io1, io2)
      | None => []
      end
  | None => []
  end.

(** The three loops over [objectGrid], with their counters [io2], [io1] and
    [io0]; the effect of the function is the sequence of calls it makes. *)
Definition registerNeighbourHood (sArray : SurfaceArray) : list RegisterCall :=
  mjoin (imap (λ io2 v210,
    mjoin (imap (λ io1 v10,
      mjoin (imap (λ io0 bSurface,
        registerCell sArray io2 io1 io0 bSurface) v10)) v210))
    (objectGrid sArray)).


(** ** Construction *)

(** Body of the loops that prefill the grid. *)
Definition fillSurface (u : BinUtility) (g : SurfaceGrid) (p : SurfacePtr)
    : option SurfaceGrid :=
  sf ← p;
  let bPosition := binningPosition W sf binR in
  let '(b0, b1, b2) := binTriple W u bPosition in
  grid_set g b2 b1 b0 (Some sf).

Definition prefillCylinder (u : BinUtility) (surfaces : SurfaceVector)
    (sGrid : SurfaceGrid) : option SurfaceGrid :=
  foldM (fillSurface u) surfaces sGrid.

(** The disc loop also sums the z coordinates. *)
Definition fillSurfaceZ (u : BinUtility) (st : float * SurfaceGrid)
    (p : SurfacePtr) : option (float * SurfaceGrid) :=
  sf ← p;
  let bPosition := binningPosition W sf binR in
  let z := (st.1 + vz bPosition)%float in
  let '(b0, b1, b2) := binTriple W u bPosition in
  g' ← grid_set st.2 b2 b1 b0 (Some sf);
  Some (z, g').

Definition prefillDisc (u : BinUtility) (surfaces : SurfaceVector)
    (sGrid : SurfaceGrid) : option (float * SurfaceGrid) :=
  foldM (fillSurfaceZ u) surfaces (0%float, sGrid).

(** [z /= surfaces.size()]: the size is converted to double, exactly for
    every size a vector of pointers can have. *)
Definition averageZ (z : float) (n : nat) : float :=
  (z / PrimFloat.of_uint63 (Uint63.of_Z (size_t n)))%float.

Definition cylinderUtility (minPhi maxPhi halfZ : float) (binsPhi binsZ : nat)
    (transform : option Transform3D) : BinUtility :=
  bu_add (BinUtility1 binsPhi minPhi maxPhi closed binPhi transform)
         (BinUtility1 binsZ (- halfZ)%float halfZ open binZ None).

(** The position matrix of the cylinder; [bdataSet[0]] and [bdataSet[1]] are
    read once here, the code reads them in every pass. *)
Definition cylinderPositions (u : BinUtility) (R : float)
    (binsPhi binsZ : nat) : option V3Matrix :=
  bd0 ← binningData u !! 0;
  bd1 ← binningData u !! 1;
  Some ((λ iz,
          let z := centerValue W bd1 iz in
          (λ iphi,
            let phi := centerValue W bd0 iphi in
            mkVector3D (R * cos W phi) (R * sin W phi) z) <$> seq 0 binsPhi)
        <$> seq 0 binsZ).

Definition surfaceArrayOnCylinder (surfaces : SurfaceVector)
    (R minPhi maxPhi halfZ : float) (binsPhi binsZ : nat)
    (transform : option Transform3D)
    : option (SurfaceArray * list RegisterCall) :=
  let u := cylinderUtility minPhi maxPhi halfZ binsPhi binsZ transform in
  let sGrid : SurfaceGrid := [replicate binsZ (replicate binsPhi nullptr)] in
  v3Matrix ← cylinderPositions u R binsPhi binsZ;
  sGrid1 ← prefillCylinder u surfaces sGrid;
  st ← completeBinning u v3Matrix surfaces sGrid1;
  let sArray := mkSurfaceArray (cb_grid st) u in
  Some (sArray, registerNeighbourHood sArray).

Definition discUtility (minR maxR minPhi maxPhi : float) (binsR binsPhi : nat)
    (transform : option Transform3D) : BinUtility :=
  bu_add (if decide (binsR = 1)
          then BinUtilityOfData (BinningData0 binR minR maxR) transform
          else BinUtility1 binsR minR maxR open binR transform)
         (BinUtility1 binsPhi minPhi maxPhi closed binPhi None).

Definition discPositions (u : BinUtility) (z : float)
    (binsR binsPhi : nat) : option V3Matrix :=
  bd0 ← binningData u !! 0;
  bd1 ← binningData u !! 1;
  Some ((λ iphi,
          let phi := centerValue W bd1 iphi in
          (λ ir,
            let R := centerValue W bd0 ir in
            mkVector3D (R * cos W phi) (R * sin W phi) z) <$> seq 0 binsR)
        <$> seq 0 binsPhi).

Definition surfaceArrayOnDisc (surfaces : SurfaceVector)
    (minR maxR minPhi maxPhi : float) (binsR binsPhi : nat)
    (transform : option Transform3D)
    : option (SurfaceArray * list RegisterCall) :=
  let u := discUtility minR maxR minPhi maxPhi binsR binsPhi transform in
  let sGrid : SurfaceGrid := [replicate binsPhi (replicate binsR nullptr)] in
  '(zsum, sGrid1) ← prefillDisc u surfaces sGrid;
  let z := averageZ zsum (length surfaces) in
  v3Matrix ← discPositions u z binsR binsPhi;
  st ← completeBinning u v3Matrix surfaces sGrid1;
  let sArray := mkSurfaceArray (cb_grid st) u in
  Some (sArray, registerNeighbourHood sArray).

End Creator.

(** ** A concrete world

    An executable instance of the collaborators, used to run the code on
    concrete detectors. *)
Module Example.

Open Scope float_scope.

Definition of_nat (n : nat) : float :=
  PrimFloat.of_uint63 (Uint63.of_Z (Z.of_nat n)).

(** Euclidean norm. *)
Definition norm3 (v : Vector3D) : float :=
  PrimFloat.sqrt (vx v * vx v + vy v * vy v + vz v * vz v).

(** Truncated power series of cosine and sine, accurate on [[-4, 4]]. *)
Fixpoint series (x2 term : float) (k n : nat) : float :=
  match n with
  | O => 0
  | S n' =>
      term + series x2 (- (term * x2) / (of_nat (k + 1) * of_nat (k + 2)))
               (k + 2) n'
  end.

Definition cos_series (x : float) : float := series (x * x) 1 0 16.
Definition sin_series (x : float) : float := series (x * x) x 1 16.

(** Modelled from the spec: the center value of a bin of an equidistant
    axis of [bd_bins] bins on [[bd_min, bd_max)]. *)
Definition binStep (bd : BinningData) : float :=
  (bd_max bd - bd_min bd) / of_nat (bd_bins bd).

Definition boundary (bd : BinningData) (i : nat) : float :=
  bd_min bd + of_nat i * binStep bd.

Definition binCenter (bd : BinningData) (i : nat) : float :=
  bd_min bd + (of_nat i + 0.5) * binStep bd.

(** Modelled from the spec: the bin of a position along one axis. A linear
    axis counts the inner boundaries at or below the value, which clamps
    values outside the range to the edge bins; the azimuthal axis looks for
    the sector that holds the direction of the position. *)
Definition linearBin (bd : BinningData) (v : float) : nat :=
  length (filter (λ i, (boundary bd i <=? v) = true) (seq 1 (bd_bins bd - 1))).

Definition inSector (bd : BinningData) (p : Vector3D) (i : nat) : bool :=
  let lo := boundary bd i in
  let hi := boundary bd (S i) in
  (0 <=? cos_series lo * vy p - sin_series lo * vx p)
  && (0 <? vx p * sin_series hi - vy p * cos_series hi).

Definition azimuthalBin (bd : BinningData) (p : Vector3D) : nat :=
  default 0%nat (head (filter (λ i, inSector bd p i = true)
                         (seq 0 (bd_bins bd)))).

Definition axisBin (bd : BinningData) (p : Vector3D) : nat :=
  match bd_value bd with
  | binX => linearBin bd (vx p)
  | binY => linearBin bd (vy p)
  | binZ => linearBin bd (vz p)
  | binR => linearBin bd (PrimFloat.sqrt (vx p * vx p + vy p * vy p))
  | binPhi => azimuthalBin bd p
  | _ => 0%nat
  end.

Definition axisBinAt (u : BinUtility) (k : nat) (p : Vector3D) : nat :=
  match binningData u !! k with
  | Some bd => axisBin bd p
  | None => 0%nat
  end.

Definition binTripleOf (u : BinUtility) (p : Vector3D) : BinTriple :=
  (axisBinAt u 0 p, axisBinAt u 1 p, axisBinAt u 2 p).

(** Modelled from the spec: the box neighbourhood of a bin, all occupied
    objects within one bin along every axis; a closed axis wraps, so that
    its first and last bins are adjacent, an open axis stops at its edges. *)
Definition neighbourRange (bd : BinningData) (i : nat) : list nat :=
  let n := bd_bins bd in
  let low := match i with
             | O => match bd_option bd with closed => n - 1 | open => 0 end
             | S i' => i'
             end%nat in
  let high := if decide (S i < n)%nat then S i
              else match bd_option bd with closed => 0 | open => i end%nat in
  remove_dups [low; i; high].

Definition axisRange (u : BinUtility) (k i : nat) : list nat :=
  match binningData u !! k with
  | Some bd => neighbourRange bd i
  | None => [0%nat]
  end.

Definition boxCluster (sArray : SurfaceArray) (t : BinTriple)
    : list SurfacePtr :=
  let u := arrayUtility sArray in
  b2 ← axisRange u 2 t.2;
  b1 ← axisRange u 1 t.1.2;
  b0 ← axisRange u 0 t.1.1;
  match grid_get (objectGrid sArray) b2 b1 b0 with
  | Some (Some s) => [Some s]
  | _ => []
  end.

(** A world of surfaces given by a table of positions and elements. *)
Definition world (position : Surface -> Vector3D)
    (element : Surface -> option Element) : World :=
  mkWorld (λ sf _, position sf) element binTripleOf binCenter boxCluster
    norm3 cos_series sin_series.

Definition pi : float := 0x1.921fb54442d18p+1.

(** Eight surfaces at radius 10 and z = 0, at the centers of eight
    azimuthal bins on [[-pi, pi)]; surface [k] has element [100 + k]. *)
Definition phi8 (k : nat) : float := - pi + (of_nat k + 0.5) * (pi / 4).

Definition position8 (sf : Surface) : Vector3D :=
  mkVector3D (10 * cos_series (phi8 sf)) (10 * sin_series (phi8 sf)) 0.

Definition world8 : World := world position8 (λ sf, Some (100 + sf)%nat).

Definition surfaces8 : SurfaceVector := Some <$> seq 0 8.

(** The bin utility of a cylinder of half length 5 with [binsPhi] by
    [binsZ] bins. *)
Definition utility (binsPhi binsZ : nat) : BinUtility :=
  cylinderUtility (- pi) pi 5 binsPhi binsZ None.

(** The same eight surfaces on a grid of 8 by 2 bins: the position matrix
    and the grid after placement. They all lie in the upper bin along z. *)
Definition positions16 : V3Matrix :=
  default [] (cylinderPositions world8 (utility 8 2) 10 8 2).

Definition placed16 : SurfaceGrid :=
  default [] (prefillCylinder world8 (utility 8 2) surfaces8
                [replicate 2 (replicate 8 nullptr)]).

(** Surface 0 moved along z to 50, outside the cylinder: the open axis
    clamps it to the edge bin, so it is still placed in bin 0. *)
Definition positionFar (sf : Surface) : Vector3D :=
  match sf with
  | O => mkVector3D (vx (position8 0)) (vy (position8 0)) 50
  | _ => position8 sf
  end.

Definition worldFar : World := world positionFar (λ sf, Some (100 + sf)%nat).

Definition positions8 : V3Matrix :=
  default [] (cylinderPositions worldFar (utility 8 1) 10 8 1).

(** Surfaces [k] and [k + 4], on opposite sides of the cylinder, belong to
    one element. *)
Definition worldOpp : World :=
  world position8 (λ sf, Some (100 + sf mod 4)%nat).

(** The eight surfaces moved along z to 2e11, farther from every bin center
    than the initial [minPath]. *)
Definition positionAway (sf : Surface) : Vector3D :=
  mkVector3D (vx (position8 sf)) (vy (position8 sf)) 200000000000.

Definition worldAway : World :=
  world positionAway (λ sf, Some (100 + sf)%nat).

Definition positions2 : V3Matrix :=
  default [] (cylinderPositions worldAway (utility 2 1) 10 2 1).

(** The first row of [positions16], and the state in which
    [completeBinning] leaves after running on [placed16]. *)
Definition row16 : V3Vector := default [] (positions16 !! 0%nat).

Definition completed16 : CBState :=
  default (mkCBState [] 0 0)
    (completeBinning world8 (utility 8 2) positions16 surfaces8 placed16).

(** The array of the eight surfaces on 8 by 1 bins. *)
Definition array8 : SurfaceArray := mkSurfaceArray [[surfaces8]] (utility 8 1).

(** Double-sided modules: surfaces [2k] and [2k+1] belong to one element. *)
Definition worldShared : World :=
  world position8 (λ sf, Some (100 + sf / 2)%nat).

End Example.

(** * Vocabulary of the properties *)

(** The bin triple of a surface, and the cell [sGrid[t[2]][t[1]][t[0]]]. *)
Definition tripleOf (W : World) (u : BinUtility) (sf : Surface) : BinTriple :=
  binTriple W u (binningPosition W sf binR).

Definition grid_at (g : SurfaceGrid) (t : BinTriple) : option SurfacePtr :=
  grid_get g t.2 t.1.2 t.1.1.

(** [sf], at index [i] of [sVector], is the first surface of the list at the
    least distance from [sposition]: no surface of the list is nearer, and
    no surface before index [i] is as near. Distances are the doubles that
    the code compares. *)
Definition firstNearest (W : World) (sposition : Vector3D)
    (sVector : SurfaceVector) (i : nat) (sf : Surface) : Prop :=
  sVector !! i = Some (Some sf) /\
  (forall sf', Some sf' ∈ sVector ->
     (testPathOf W sposition sf' <? testPathOf W sposition sf)%float = false) /\
  (forall j sf', j < i -> sVector !! j = Some (Some sf') ->
     (testPathOf W sposition sf' <=? testPathOf W sposition sf)%float = false).

(** What the loop over [sVector] does to the pair of [sentry] and [minPath]:
    it keeps both when no distance is below [minPath], and otherwise ends
    with the first nearest surface and its distance. *)
Definition selects (W : World) (sposition : Vector3D) (sVector : SurfaceVector)
    (sentry : SurfacePtr) (minPath : float)
    (sentry' : SurfacePtr) (minPath' : float) : Prop :=
  (sentry' = sentry /\ minPath' = minPath /\
   forall sf, Some sf ∈ sVector ->
     (testPathOf W sposition sf <? minPath)%float = false)
  \/
  (exists i sf, sentry' = Some sf /\ minPath' = testPathOf W sposition sf /\
     (testPathOf W sposition sf <? minPath)%float = true /\
     firstNearest W sposition sVector i sf).

(** The cells [(io1, io0)] in the order of the two outer loops. *)
Definition cellsOf (n1 n0 : nat) : list (nat * nat) :=
  io1 ← seq 0 n1; pair io1 <$> seq 0 n0.

(** What happens to the cell that one pass of the loop over [io0] visits. *)
Definition cellOutcome (W : World) (v3Matrix : V3Matrix)
    (sVector : SurfaceVector) (io1 io0 : nat)
    (g g' : SurfaceGrid) : Prop :=
  exists sposition before after minPath',
    v3_get v3Matrix io1 io0 = Some sposition /\
    grid_get g 0 io1 io0 = Some before /\
    grid_get g' 0 io1 io0 = Some after /\
    selects W sposition sVector before minPath0 after minPath'.

(** The two outer loops as one loop over [cellsOf]. *)
Definition completeCells (W : World) (v3Matrix : V3Matrix)
    (sVector : SurfaceVector)
    (cells : list (nat * nat)) (st : CBState) : option CBState :=
  foldM (fun st c => completeCell W v3Matrix sVector c.1 st c.2) cells st.

(** [nGridPoints] of [completeBinning], for a matrix whose first row is
    [row0]. *)
Definition nGridPoints (v3Matrix : V3Matrix) (row0 : V3Vector) : Z :=
  size_t_mul (size_t (length v3Matrix)) (size_t (length row0)).

(** Every cell of the grid holds a surface. *)
Definition gridFilled (g : SurfaceGrid) : Prop :=
  forall io2 io1 io0 p, grid_get g io2 io1 io0 = Some p -> is_Some p.

(** The cell [(io1, io0)], whose center is [sposition], is covered: a
    surface of the list is placed in it, or the number of cells differs from
    the number of surfaces and a surface of the list is nearer to its center
    than [minPath0]. *)
Definition cellCovered (W : World) (u : BinUtility) (surfaces : SurfaceVector)
    (nCells : Z) (io1 io0 : nat) (sposition : Vector3D) : Prop :=
  (exists sf, Some sf ∈ surfaces /\ tripleOf W u sf = (io0, io1, 0)) \/
  (nCells <> size_t (length surfaces) /\
   exists sf, Some sf ∈ surfaces /\
     (testPathOf W sposition sf <? minPath0)%float = true).

(** The pointer [q] is a surface whose bin triple is [t]. *)
Definition placedAt (W : World) (u : BinUtility) (t : BinTriple)
    (q : SurfacePtr) : Prop :=
  match q with
  | Some sf => tripleOf W u sf = t
  | None => False
  end.

#[local] Instance placedAt_dec W u t q : Decision (placedAt W u t q).
Proof. destruct q; simpl; apply _. Defined.

(** The distance, as the double that [mag] returns, from the position
    [center] to the binning position of the surface [sf]. *)
Definition distance (W : World) (center : Vector3D) (sf : Surface) : float :=
  let p := binningPosition W sf binR in
  mag W (mkVector3D (vx center - vx p) (vy center - vy p)
           (vz center - vz p)).

(** [sf], at index [i] of [sVector], is the first closest surface of the
    list to [center]: no surface of the list is at a smaller distance, no
    surface before index [i] is at a distance as small, and its distance is
    at most every distance of the list that is a number. *)
Definition firstClosest (W : World) (center : Vector3D)
    (sVector : SurfaceVector) (i : nat) (sf : Surface) : Prop :=
  sVector !! i = Some (Some sf) /\
  (forall sf', Some sf' ∈ sVector ->
     (distance W center sf' <? distance W center sf)%float = false) /\
  (forall j sf', j < i -> sVector !! j = Some (Some sf') ->
     (distance W center sf' <=? distance W center sf)%float = false) /\
  (forall sf', Some sf' ∈ sVector ->
     PrimFloat.is_nan (distance W center sf') = false ->
     (distance W center sf <=? distance W center sf')%float = true).






(** The bin triple of an entry of the input list. *)
Definition ptrTriple (W : World) (u : BinUtility) (p : SurfacePtr)
    : option BinTriple :=
  tripleOf W u <$> p.

(** The bin triple [t] lies in a grid of 1 by [n1] by [n0] cells. *)
Definition inGrid (n1 n0 : nat) (t : BinTriple) : Prop :=
  t.2 = 0 /\ t.1.2 < n1 /\ t.1.1 < n0.

(** An entry of the input list that the placement loop can store: a surface
    whose bin triple lies in the grid. *)
Definition placeable (W : World) (u : BinUtility) (n1 n0 : nat)
    (p : SurfacePtr) : Prop :=
  exists sf, p = Some sf /\ inGrid n1 n0 (tripleOf W u sf).

(** * Properties *)

(** ** The order of doubles

    [<] and [<=] on binary64 through their specification on [spec_float];
    a comparison with a NaN is false, so the lemmas hold for every double. *)
Section FloatOrder.

Local Ltac cmp_cases :=
  repeat match goal with
  | |- context [Z.compare ?a ?b] => destruct (Z.compare_spec a b); subst
  | |- context [Pos.compare_cont Eq ?a ?b] =>
      change (Pos.compare_cont Eq a b) with (Pos.compare a b);
      destruct (Pos.compare_spec a b); subst
  end.

Lemma SFcompare_Lt_trans x y z :
  SFcompare x y = Some Lt -> SFcompare y z = Some Lt ->
  SFcompare x z = Some Lt.
Proof.
  destruct x as [[]|[]| |[] mx ex], y as [[]|[]| |[] my ey],
    z as [[]|[]| |[] mz ez]; simpl; try congruence.
  all: cmp_cases; simpl; try congruence; try lia.
Qed.

Lemma SFcompare_Eq_Lt_trans x y z :
  SFcompare x y = Some Eq -> SFcompare y z = Some Lt ->
  SFcompare x z = Some Lt.
Proof.
  destruct x as [[]|[]| |[] mx ex], y as [[]|[]| |[] my ey],
    z as [[]|[]| |[] mz ez]; simpl; try congruence.
  all: cmp_cases; simpl; try congruence; try lia.
Qed.

Lemma SFcompare_irrefl x : SFcompare x x <> Some Lt.
Proof.
  destruct x as [[]|[]| |[] mx ex]; simpl; try congruence.
  all: rewrite Z.compare_refl, Pos.compare_cont_refl; simpl; congruence.
Qed.

Lemma SFltb_Lt x y : SFltb x y = true <-> SFcompare x y = Some Lt.
Proof.
  unfold SFltb. destruct (SFcompare x y) as [[]|]; split; congruence.
Qed.

Lemma SFleb_Le x y :
  SFleb x y = true <-> SFcompare x y = Some Lt \/ SFcompare x y = Some Eq.
Proof.
  unfold SFleb. destruct (SFcompare x y) as [[]|]; split;
    intuition congruence.
Qed.

Lemma fltb_trans (a b c : float) :
  (a <? b)%float = true -> (b <? c)%float = true -> (a <? c)%float = true.
Proof.
  rewrite !FloatAxioms.ltb_spec, !SFltb_Lt. apply SFcompare_Lt_trans.
Qed.

Lemma fleb_ltb_trans (a b c : float) :
  (a <=? b)%float = true -> (b <? c)%float = true -> (a <? c)%float = true.
Proof.
  rewrite !FloatAxioms.ltb_spec, FloatAxioms.leb_spec, !SFltb_Lt, SFleb_Le.
  intros [H|H] ?; eauto using SFcompare_Lt_trans, SFcompare_Eq_Lt_trans.
Qed.

Lemma fltb_irrefl (a : float) : (a <? a)%float = false.
Proof.
  apply not_true_is_false. rewrite FloatAxioms.ltb_spec, SFltb_Lt.
  apply SFcompare_irrefl.
Qed.

Lemma fltb_asym (a b : float) :
  (a <? b)%float = true -> (b <? a)%float = false.
Proof.
  intros H. apply not_true_is_false. intros H'.
  pose proof (fltb_trans _ _ _ H H') as Hc. by rewrite fltb_irrefl in Hc.
Qed.

Lemma fltb_not_leb (a b : float) :
  (a <? b)%float = true -> (b <=? a)%float = false.
Proof.
  intros H. apply not_true_is_false. intros H'.
  pose proof (fleb_ltb_trans _ _ _ H' H) as Hc. by rewrite fltb_irrefl in Hc.
Qed.

Lemma SFcompare_total x y :
  x <> S754_nan -> y <> S754_nan -> SFcompare y x <> Some Lt ->
  SFcompare x y = Some Lt \/ SFcompare x y = Some Eq.
Proof.
  destruct x as [[]|[]| |[] mx ex], y as [[]|[]| |[] my ey];
    simpl; try congruence; auto.
  all: cmp_cases; simpl; try congruence; auto; try lia.
Qed.

Lemma SFltb_not_nan x y : SFcompare x y = Some Lt -> x <> S754_nan.
Proof. by destruct x. Qed.

Lemma is_nan_false (a : float) :
  PrimFloat.is_nan a = false -> Prim2SF a <> S754_nan.
Proof.
  unfold PrimFloat.is_nan. rewrite FloatAxioms.eqb_spec. intros H Hnan.
  rewrite Hnan in H. done.
Qed.

(** Doubles that are not NaN are totally ordered. *)
Lemma fltb_false_leb (a b c : float) :
  (a <? c)%float = true -> PrimFloat.is_nan b = false ->
  (b <? a)%float = false -> (a <=? b)%float = true.
Proof.
  rewrite !FloatAxioms.ltb_spec, FloatAxioms.leb_spec, SFltb_Lt, SFleb_Le.
  intros Ha%SFltb_not_nan Hb%is_nan_false Hlt.
  apply SFcompare_total; auto. intros Hc%SFltb_Lt. congruence.
Qed.

End FloatOrder.

(** ** Reading and writing grid cells *)
Section Grid.

Implicit Types (g : SurfaceGrid) (v p : SurfacePtr).

Lemma grid_set_is_Some g i2 i1 i0 v :
  is_Some (grid_set g i2 i1 i0 v) <-> is_Some (grid_get g i2 i1 i0).
Proof.
  unfold grid_set. destruct (grid_get g i2 i1 i0); simpl;
    split; intros [? ?]; eauto; done.
Qed.

Lemma grid_get_set_eq g g' i2 i1 i0 v :
  grid_set g i2 i1 i0 v = Some g' -> grid_get g' i2 i1 i0 = Some v.
Proof.
  unfold grid_set. intros H.
  destruct (grid_get g i2 i1 i0) as [p|] eqn:Hg; simplify_eq/=.
  unfold grid_get in *.
  destruct (g !! i2) as [m|] eqn:Hm; simplify_eq/=.
  destruct (m !! i1) as [r|] eqn:Hr; simplify_eq/=.
  rewrite list_lookup_alter_eq, Hm. simpl.
  rewrite list_lookup_alter_eq, Hr. simpl.
  apply list_lookup_insert_eq. by eapply lookup_lt_Some.
Qed.

Lemma grid_get_set_ne g g' i2 i1 i0 j2 j1 j0 v :
  grid_set g i2 i1 i0 v = Some g' -> (j2, j1, j0) <> (i2, i1, i0) ->
  grid_get g' j2 j1 j0 = grid_get g j2 j1 j0.
Proof.
  unfold grid_set. intros H Hne.
  destruct (grid_get g i2 i1 i0) as [p|] eqn:Hg; simplify_eq/=.
  clear Hg. unfold grid_get.
  destruct (decide (i2 = j2)) as [->|]; [|by rewrite list_lookup_alter_ne].
  rewrite list_lookup_alter_eq. destruct (g !! j2) as [m|]; [simpl|done].
  destruct (decide (i1 = j1)) as [->|]; [|by rewrite list_lookup_alter_ne].
  rewrite list_lookup_alter_eq. destruct (m !! j1) as [r|]; [simpl|done].
  apply list_lookup_insert_ne. congruence.
Qed.

Lemma grid_get_set g g' i2 i1 i0 j2 j1 j0 v :
  grid_set g i2 i1 i0 v = Some g' ->
  grid_get g' j2 j1 j0 =
    if decide ((j2, j1, j0) = (i2, i1, i0)) then Some v
    else grid_get g j2 j1 j0.
Proof.
  intros H. case_decide as Heq.
  - injection Heq as -> -> ->. by eapply grid_get_set_eq.
  - by eapply grid_get_set_ne.
Qed.

(** A write keeps the shape of the grid. *)
Lemma grid_set_shape g g' i2 i1 i0 j2 j1 j0 v :
  grid_set g i2 i1 i0 v = Some g' ->
  is_Some (grid_get g' j2 j1 j0) <-> is_Some (grid_get g j2 j1 j0).
Proof.
  intros H. rewrite (grid_get_set _ _ _ _ _ _ _ _ _ H). case_decide as Heq.
  - injection Heq as -> -> ->. split; [intros _|by eauto].
    apply grid_set_is_Some with (v := v). by rewrite H.
  - done.
Qed.

(** The grid of null pointers that the constructions start from. *)
Lemma grid_get_replicate (n1 n0 : nat) i2 i1 i0 p :
  grid_get [replicate n1 (replicate n0 nullptr)] i2 i1 i0 = Some p <->
  i2 = 0 /\ i1 < n1 /\ i0 < n0 /\ p = nullptr.
Proof.
  unfold grid_get. destruct i2 as [|i2]; simpl.
  - destruct (replicate n1 (replicate n0 nullptr) !! i1) as [r|] eqn:Hr;
      simpl.
    + apply lookup_replicate in Hr as [-> ?]. rewrite lookup_replicate.
      split; [intros [-> ?]; auto|intros (_ & _ & ? & ->); auto].
    + apply lookup_replicate_None in Hr. split; [done|lia].
  - split; [done|]. intros [? _]. lia.
Qed.

End Grid.

(** ** Loops *)
Section FoldM.

Context {S A : Type}.
Implicit Types (body : S -> A -> option S) (l : list A).

Lemma foldM_app body l1 l2 s :
  foldM body (l1 ++ l2) s = foldM body l1 s ≫= foldM body l2.
Proof.
  revert s. induction l1 as [|a l1 IH]; intros s; simpl; [done|].
  destruct (body s a); simpl; auto.
Qed.

Lemma foldM_cons_Some body a l s s' :
  foldM body (a :: l) s = Some s' <->
  exists s1, body s a = Some s1 /\ foldM body l s1 = Some s'.
Proof.
  simpl. destruct (body s a) as [s1|]; simpl; split.
  - intros H. by exists s1.
  - by intros (? & [= <-] & H).
  - done.
  - by intros (? & ? & _).
Qed.

End FoldM.

(** ** completeBinning: the search for the nearest surface *)
Section CompleteBinning.

Variable W : World.
Implicit Types (g : SurfaceGrid) (sVector : SurfaceVector).

Lemma selects_cons_accept sposition sVector sf sentry minPath s' m' :
  (testPathOf W sposition sf <? minPath)%float = true ->
  selects W sposition sVector (Some sf) (testPathOf W sposition sf) s' m' ->
  selects W sposition (Some sf :: sVector) sentry minPath s' m'.
Proof.
  intros Hlt [(-> & -> & Hall)|(i & x & -> & -> & Hx & Hi & Hmin & Hfirst)];
    right.
  - exists 0, sf. repeat split; auto.
    + intros sf' [?|?]%elem_of_cons; simplify_eq; auto using fltb_irrefl.
    + intros; lia.
  - exists (S i), x. repeat split; eauto using fltb_trans.
    + intros sf' [?|?]%elem_of_cons; simplify_eq; auto using fltb_asym.
    + intros [|j] sf' ? Hj; simplify_eq/=; auto using fltb_not_leb.
      apply Hfirst with j; [lia|done].
Qed.

Lemma selects_cons_reject sposition sVector sf sentry minPath s' m' :
  (testPathOf W sposition sf <? minPath)%float = false ->
  selects W sposition sVector sentry minPath s' m' ->
  selects W sposition (Some sf :: sVector) sentry minPath s' m'.
Proof.
  intros Hge [(-> & -> & Hall)|(i & x & -> & -> & Hx & Hi & Hmin & Hfirst)];
    [left|right].
  - repeat split; auto.
    intros sf' [?|?]%elem_of_cons; simplify_eq; auto.
  - exists (S i), x. repeat split; auto.
    + intros sf' [?|?]%elem_of_cons; simplify_eq; auto.
      apply not_true_is_false. intros Hc.
      by rewrite (fltb_trans _ _ _ Hc Hx) in Hge.
    + intros [|j] sf' ? Hj; simplify_eq/=.
      * apply not_true_is_false. intros Hc.
        by rewrite (fleb_ltb_trans _ _ _ Hc Hx) in Hge.
      * apply Hfirst with j; [lia|done].
Qed.

(** The loop over [sVector] for the cell [(io1, io0)]. *)
Lemma nearest_loop io1 io0 sposition sVector st st' :
  grid_get (cs_grid st) 0 io1 io0 = Some (cs_sentry st) ->
  foldM (nearestStep W io1 io0 sposition) sVector st = Some st' ->
  grid_get (cs_grid st') 0 io1 io0 = Some (cs_sentry st') /\
  (forall j2 j1 j0, (j2, j1, j0) <> (0, io1, io0) ->
     grid_get (cs_grid st') j2 j1 j0 = grid_get (cs_grid st) j2 j1 j0) /\
  cs_testPaths st' = cs_testPaths st + length sVector /\
  selects W sposition sVector (cs_sentry st) (cs_minPath st)
    (cs_sentry st') (cs_minPath st').
Proof.
  revert st. induction sVector as [|p sVector IH]; intros st Hin Hrun.
  - simplify_eq/=. repeat split; auto. left. repeat split; auto.
    intros sf Hsf. by apply elem_of_nil in Hsf.
  - apply foldM_cons_Some in Hrun as (st1 & Hstep & Hrun).
    unfold nearestStep in Hstep. destruct p as [sf|]; simplify_eq/=.
    destruct (testPathOf W sposition sf <? cs_minPath st)%float eqn:Hlt.
    + destruct (grid_set (cs_grid st) 0 io1 io0 (Some sf)) as [g1|] eqn:Hset;
        simplify_eq/=.
      apply IH in Hrun as (Hcell & Hframe & Hcount & Hsel);
        [|by eapply grid_get_set_eq]; simpl in *.
      repeat split; auto.
      * intros j2 j1 j0 Hne. rewrite Hframe by done.
        by eapply grid_get_set_ne.
      * lia.
      * by apply selects_cons_accept.
    + simplify_eq/=.
      apply IH in Hrun as (Hcell & Hframe & Hcount & Hsel); [|done];
        simpl in *.
      repeat split; auto; [lia|]. by apply selects_cons_reject.
Qed.

Lemma completeCell_spec v3Matrix sVector io1 io0 st st' :
  completeCell W v3Matrix sVector io1 st io0 = Some st' ->
  cellOutcome W v3Matrix sVector io1 io0 (cb_grid st) (cb_grid st') /\
  (forall j2 j1 j0, (j2, j1, j0) <> (0, io1, io0) ->
     grid_get (cb_grid st') j2 j1 j0 = grid_get (cb_grid st) j2 j1 j0) /\
  cb_testPaths st' = cb_testPaths st + length sVector.
Proof.
  unfold completeCell. intros H.
  destruct (grid_get (cb_grid st) 0 io1 io0) as [sentry|] eqn:Hget;
    simplify_eq/=.
  destruct (v3_get v3Matrix io1 io0) as [sposition|] eqn:Hpos; simplify_eq/=.
  destruct (foldM _ sVector _) as [cs|] eqn:Hloop; simplify_eq/=.
  apply nearest_loop in Hloop as (Hcell & Hframe & Hcount & Hsel); [|done].
  simpl in *. repeat split; auto.
  by exists sposition, sentry, (cs_sentry cs), (cs_minPath cs).
Qed.

Lemma completeRow_cells v3Matrix sVector (row0 : V3Vector) io1 st :
  completeRow W v3Matrix sVector row0 st io1 =
  completeCells W v3Matrix sVector (pair io1 <$> seq 0 (length row0)) st.
Proof.
  unfold completeRow, completeCells. generalize (seq 0 (length row0)).
  intros l. revert st. induction l as [|a l IHl]; intros s; simpl; [done|].
  destruct (completeCell W v3Matrix sVector io1 s a); simpl; auto.
Qed.

Lemma completeCells_app v3Matrix sVector (l1 l2 : list (nat * nat)) st :
  completeCells W v3Matrix sVector (l1 ++ l2) st =
  completeCells W v3Matrix sVector l1 st ≫= completeCells W v3Matrix sVector l2.
Proof. apply foldM_app. Qed.

Lemma completeRows_cells v3Matrix sVector (row0 : V3Vector) (rows : list nat)
    st :
  foldM (completeRow W v3Matrix sVector row0) rows st =
  completeCells W v3Matrix sVector
    (io1 ← rows; pair io1 <$> seq 0 (length row0)) st.
Proof.
  revert st. induction rows as [|io1 rows IH]; intros st; [done|].
  cbn [foldM]. rewrite completeRow_cells.
  change ((io1 :: rows) ≫= (fun io1 => pair io1 <$> seq 0 (length row0)))
    with ((pair io1 <$> seq 0 (length row0)) ++
          (rows ≫= (fun io1 => pair io1 <$> seq 0 (length row0)))).
  rewrite completeCells_app.
  destruct (completeCells _ _ _ (pair io1 <$> _) st); simpl; auto.
Qed.

Lemma elem_of_cellsOf n1 n0 io1 io0 :
  (io1, io0) ∈ cellsOf n1 n0 <-> io1 < n1 /\ io0 < n0.
Proof.
  unfold cellsOf. rewrite list_elem_of_bind. split.
  - intros (i & Hin & Hi%elem_of_seq).
    apply list_elem_of_fmap in Hin as (j & ? & Hj%elem_of_seq).
    simplify_eq. lia.
  - intros [? ?]. exists io1. split; [|apply elem_of_seq; lia].
    apply list_elem_of_fmap. exists io0. split; [done|].
    apply elem_of_seq; lia.
Qed.

Lemma NoDup_cellsOf n1 n0 : NoDup (cellsOf n1 n0).
Proof.
  unfold cellsOf. apply NoDup_bind.
  - intros i j c _ _ Hi%list_elem_of_fmap Hj%list_elem_of_fmap.
    destruct Hi as (? & ? & _), Hj as (? & ? & _). by simplify_eq.
  - intros i _. apply NoDup_fmap_2; [|apply NoDup_seq].
    intros ?? ?. by simplify_eq.
  - apply NoDup_seq.
Qed.

(** A loop over distinct cells: every visited cell has the outcome of its
    own pass, computed from its content before the loop, and every other
    cell is untouched. *)
Lemma completeCells_spec v3Matrix sVector cells st st' :
  NoDup cells ->
  completeCells W v3Matrix sVector cells st = Some st' ->
  (forall io1 io0, (io1, io0) ∈ cells ->
     cellOutcome W v3Matrix sVector io1 io0 (cb_grid st) (cb_grid st')) /\
  (forall j2 j1 j0, (j2 = 0 -> (j1, j0) ∉ cells) ->
     grid_get (cb_grid st') j2 j1 j0 = grid_get (cb_grid st) j2 j1 j0) /\
  cb_testPaths st' = cb_testPaths st + length cells * length sVector.
Proof.
  unfold completeCells. revert st.
  induction cells as [|[c1 c0] cells IH]; intros st Hnd Hrun.
  - simplify_eq/=. repeat split; auto. intros ?? Hin.
    by apply elem_of_nil in Hin.
  - apply NoDup_cons in Hnd as [Hfresh Hnd].
    apply foldM_cons_Some in Hrun as (st1 & Hstep & Hrun). simpl in Hstep.
    apply completeCell_spec in Hstep as (Hout1 & Hframe1 & Hcount1).
    destruct (IH _ Hnd Hrun) as (Hout & Hframe & Hcount).
    repeat split.
    + intros io1 io0 [Heq|Hin]%elem_of_cons.
      * simplify_eq.
        destruct Hout1 as (sp & b & a & m & Hsp & Hb & Ha & Hsel).
        exists sp, b, a, m. repeat split; auto.
        rewrite Hframe; [done|]. by intros _.
      * destruct (Hout _ _ Hin) as (sp & b & a & m & Hsp & Hb & Ha & Hsel).
        exists sp, b, a, m. repeat split; auto.
        rewrite <- Hframe1; [done|]. intros ?; simplify_eq. done.
    + intros j2 j1 j0 Hnot. rewrite Hframe, Hframe1; [done| |].
      * intros ?; simplify_eq. apply Hnot; [done|]. apply elem_of_cons; auto.
      * intros ->. specialize (Hnot eq_refl).
        rewrite not_elem_of_cons in Hnot. tauto.
    + simpl. lia.
Qed.

Lemma completeBinning_fast u v3Matrix row0 sVector g :
  v3Matrix !! 0 = Some row0 ->
  nGridPoints v3Matrix row0 = size_t (length sVector) ->
  completeBinning W u v3Matrix sVector g = Some (mkCBState g 0 0).
Proof.
  unfold completeBinning, nGridPoints. intros -> Heq. simpl.
  by rewrite decide_True.
Qed.

Lemma completeBinning_slow u v3Matrix row0 sVector g :
  v3Matrix !! 0 = Some row0 ->
  nGridPoints v3Matrix row0 <> size_t (length sVector) ->
  completeBinning W u v3Matrix sVector g =
  completeCells W v3Matrix sVector (cellsOf (length v3Matrix) (length row0))
    (mkCBState g 0 0).
Proof.
  unfold completeBinning, nGridPoints. intros -> Hne. simpl.
  rewrite decide_False by done. apply completeRows_cells.
Qed.

End CompleteBinning.

(** ** Placement *)

Section Placement.

Variable W : World.
Variable u : BinUtility.
Implicit Types (g : SurfaceGrid) (surfaces : SurfaceVector).

Lemma fillSurface_Some g p g' :
  fillSurface W u g p = Some g' <->
  exists sf, p = Some sf /\
    grid_set g (tripleOf W u sf).2 (tripleOf W u sf).1.2
      (tripleOf W u sf).1.1 (Some sf) = Some g'.
Proof.
  unfold fillSurface. destruct p as [sf|]; simpl.
  - fold (tripleOf W u sf).
    destruct (tripleOf W u sf) as [[b0 b1] b2] eqn:Ht; simpl. split.
    + intros H. exists sf. by rewrite Ht.
    + intros (? & [= <-] & H). by rewrite Ht in H.
  - split; [done|]. by intros (? & ? & _).
Qed.

Lemma prefill_untouched surfaces g g' j2 j1 j0 :
  prefillCylinder W u surfaces g = Some g' ->
  (forall sf, Some sf ∈ surfaces -> tripleOf W u sf <> (j0, j1, j2)) ->
  grid_get g' j2 j1 j0 = grid_get g j2 j1 j0.
Proof.
  unfold prefillCylinder. revert g.
  induction surfaces as [|p surfaces IH]; intros g Hrun Hno.
  - by simplify_eq/=.
  - apply foldM_cons_Some in Hrun as (g1 & Hstep & Hrun).
    apply fillSurface_Some in Hstep as (sf & -> & Hset).
    rewrite (IH _ Hrun) by (intros; apply Hno; by right).
    eapply grid_get_set_ne; [done|]. intros Heq.
    apply (Hno sf); [by left|].
    destruct (tripleOf W u sf) as [[b0 b1] b2]; simpl in *. congruence.
Qed.

Lemma prefill_last surfaces g g' l1 sf l2 :
  prefillCylinder W u surfaces g = Some g' ->
  surfaces = l1 ++ Some sf :: l2 ->
  (forall sf', Some sf' ∈ l2 -> tripleOf W u sf' <> tripleOf W u sf) ->
  grid_at g' (tripleOf W u sf) = Some (Some sf).
Proof.
  unfold prefillCylinder. intros Hrun -> Hlast.
  rewrite foldM_app in Hrun.
  destruct (foldM (fillSurface W u) l1 g) as [g1|]; [|done].
  cbn [mbind option_bind] in Hrun.
  apply foldM_cons_Some in Hrun as (g2 & Hstep & Hrun).
  apply fillSurface_Some in Hstep as (? & [= <-] & Hset).
  unfold grid_at.
  rewrite (prefill_untouched l2 g2 g').
  - by eapply grid_get_set_eq.
  - done.
  - intros sf' Hin. destruct (tripleOf W u sf) as [[b0 b1] b2]; simpl.
    by apply Hlast.
Qed.

(** A cell whose content changed holds a surface of the list, in the cell
    of its own bin triple. *)
Lemma prefill_origin surfaces g g' j2 j1 j0 p :
  prefillCylinder W u surfaces g = Some g' ->
  grid_get g' j2 j1 j0 = Some p ->
  grid_get g j2 j1 j0 = Some p \/
  exists sf, p = Some sf /\ Some sf ∈ surfaces /\
    tripleOf W u sf = (j0, j1, j2).
Proof.
  unfold prefillCylinder. revert g.
  induction surfaces as [|q surfaces IH]; intros g Hrun Hget.
  - simplify_eq/=. by left.
  - apply foldM_cons_Some in Hrun as (g1 & Hstep & Hrun).
    apply fillSurface_Some in Hstep as (sf & -> & Hset).
    destruct (IH _ Hrun Hget) as [Hg1|(sf' & -> & Hin & Ht)].
    + rewrite (grid_get_set _ _ _ _ _ _ _ _ _ Hset) in Hg1.
      case_decide as Heq; [|by left]. right. exists sf.
      simplify_eq. split; [done|]. split; [by left|].
      by destruct (tripleOf W u sf) as [[b0 b1] b2].
    + right. exists sf'. split; [done|]. split; [by right|done].
Qed.

Lemma prefill_shape surfaces g g' j2 j1 j0 :
  prefillCylinder W u surfaces g = Some g' ->
  is_Some (grid_get g' j2 j1 j0) <-> is_Some (grid_get g j2 j1 j0).
Proof.
  unfold prefillCylinder. revert g.
  induction surfaces as [|q surfaces IH]; intros g Hrun.
  - by simplify_eq/=.
  - apply foldM_cons_Some in Hrun as (g1 & Hstep & Hrun).
    apply fillSurface_Some in Hstep as (sf & -> & Hset).
    rewrite (IH _ Hrun). by eapply grid_set_shape.
Qed.

(** The disc loop fills the grid as the cylinder loop does. *)
Lemma prefillDisc_grid surfaces g z g' :
  prefillDisc W u surfaces g = Some (z, g') ->
  prefillCylinder W u surfaces g = Some g'.
Proof.
  unfold prefillDisc, prefillCylinder. generalize 0%float. revert g.
  induction surfaces as [|q surfaces IH]; intros g z0 Hrun.
  - by simplify_eq/=.
  - apply foldM_cons_Some in Hrun as ([z1 g1] & Hstep & Hrun).
    apply foldM_cons_Some. exists g1. split; [|by eapply IH].
    unfold fillSurfaceZ, fillSurface in *.
    destruct q as [sf|]; simplify_eq/=.
    destruct (binTriple W u _) as [[b0 b1] b2].
    destruct (grid_set g b2 b1 b0 (Some sf)); by simplify_eq/=.
Qed.

End Placement.

(** ** Neighbour registration *)
Section Neighbours.

Variable W : World.
Implicit Types (sArray : SurfaceArray) (c : RegisterCall).

(** The calls of [registerNeighbourHood] are the calls made for its bins. *)
Lemma elem_of_registerNeighbourHood sArray c :
  c ∈ registerNeighbourHood W sArray <->
  exists io2 io1 io0 bSurface,
    grid_get (objectGrid sArray) io2 io1 io0 = Some bSurface /\
    c ∈ registerCell W sArray io2 io1 io0 bSurface.
Proof.
  unfold registerNeighbourHood, grid_get. split.
  - intros (l2 & Hc & Hl2)%list_elem_of_join.
    apply elem_of_lookup_imap in Hl2 as (io2 & v210 & -> & H2).
    apply list_elem_of_join in Hc as (l1 & Hc & Hl1).
    apply elem_of_lookup_imap in Hl1 as (io1 & v10 & -> & H1).
    apply list_elem_of_join in Hc as (l0 & Hc & Hl0).
    apply elem_of_lookup_imap in Hl0 as (io0 & bSurface & -> & H0).
    exists io2, io1, io0, bSurface. rewrite H2; simpl. rewrite H1; simpl.
    done.
  - intros (io2 & io1 & io0 & bSurface & Hget & Hc).
    destruct (objectGrid sArray !! io2) as [v210|] eqn:H2; simplify_eq/=.
    destruct (v210 !! io1) as [v10|] eqn:H1; simplify_eq/=.
    apply list_elem_of_join. eexists. split; [|apply elem_of_lookup_imap; eauto].
    apply list_elem_of_join. eexists. split; [|apply elem_of_lookup_imap; eauto].
    apply list_elem_of_join. eexists. split; [|apply elem_of_lookup_imap; eauto].
    done.
Qed.

(** A call made for a bin: its element is the element of the bin's surface
    and its list comes from one surface of the cluster. *)
Lemma elem_of_registerCell sArray io2 io1 io0 bSurface c :
  c ∈ registerCell W sArray io2 io1 io0 bSurface <->
  exists b nSurface,
    bSurface = Some b /\
    associatedDetectorElement W b = Some (rc_element c) /\
    nSurface ∈ objectCluster W sArray (io0, io1, io2) /\
    rc_neighbours c = neighbourElementsOf W b nSurface.
Proof.
  unfold registerCell. destruct bSurface as [b|].
  - destruct (associatedDetectorElement W b) as [e|] eqn:He.
    + rewrite list_elem_of_fmap. split.
      * intros (n & -> & Hn). exists b, n. simpl. repeat split; auto.
      * intros (b' & n & [= <-] & Hel & Hn & Hl). exists n.
        split; [|done]. destruct c; simpl in *. congruence.
    + split; [by intros ?%elem_of_nil|].
      intros (b' & n & [= <-] & Hel & _). congruence.
  - split; [by intros ?%elem_of_nil|]. by intros (b' & n & ? & _).
Qed.

Lemma neighbourElementsOf_length b nSurface :
  length (neighbourElementsOf W b nSurface) <= 1.
Proof.
  unfold neighbourElementsOf. destruct nSurface as [n|]; simpl; [|lia].
  case_decide; simpl; [|lia].
  destruct (associatedDetectorElement W n); simpl; lia.
Qed.

Lemma elem_of_neighbourElementsOf b nSurface e :
  e ∈ neighbourElementsOf W b nSurface <->
  exists n, nSurface = Some n /\ n <> b /\
    associatedDetectorElement W n = Some e.
Proof.
  unfold neighbourElementsOf. destruct nSurface as [n|]; simpl.
  - case_decide as Hne.
    + destruct (associatedDetectorElement W n) as [e'|] eqn:He.
      * rewrite list_elem_of_singleton. split.
        -- intros ->. by exists n.
        -- intros (? & [= <-] & _ & ?). congruence.
      * split; [by intros ?%elem_of_nil|].
        intros (? & [= <-] & _ & ?). congruence.
    + split; [by intros ?%elem_of_nil|].
      intros (? & [= <-] & ? & _). done.
  - split; [by intros ?%elem_of_nil|]. by intros (? & ? & _).
Qed.

(** Every list passed to [registerNeighbours] has at most one member. *)
Lemma registerNeighbourHood_short sArray c :
  c ∈ registerNeighbourHood W sArray -> length (rc_neighbours c) <= 1.
Proof.
  intros (io2 & io1 & io0 & bSurface & _ & Hc)%elem_of_registerNeighbourHood.
  apply elem_of_registerCell in Hc as (b & n & _ & _ & _ & ->).
  apply neighbourElementsOf_length.
Qed.

(** A grid of null pointers leads to no call. *)
Lemma registerNeighbourHood_null sArray :
  (forall io2 io1 io0 p,
     grid_get (objectGrid sArray) io2 io1 io0 = Some p -> p = nullptr) ->
  registerNeighbourHood W sArray = [].
Proof.
  intros Hnull. apply elem_of_nil_inv. intros c Hc.
  apply elem_of_registerNeighbourHood in Hc
    as (io2 & io1 & io0 & bSurface & Hget & Hc).
  apply Hnull in Hget as ->. by apply elem_of_nil in Hc.
Qed.

End Neighbours.

(** Under the last-write-wins contract, the neighbours registered on an
    element are the list of one of the calls made on it. *)
Lemma registered_lookup (calls : list RegisterCall) (e : Element)
    (l : list Element) :
  registered calls !! e = Some l ->
  exists c, c ∈ calls /\ rc_element c = e /\ rc_neighbours c = l.
Proof.
  unfold registered. induction calls as [|c calls IH] using rev_ind.
  - simpl. by rewrite lookup_empty.
  - rewrite foldl_app. simpl. unfold registerNeighbours at 1.
    destruct (decide (rc_element c = e)) as [<-|Hne].
    + rewrite lookup_insert_eq. intros [= <-]. exists c.
      split; [apply elem_of_app; right; by left|done].
    + rewrite lookup_insert_ne by done. intros (c' & Hin & ?)%IH.
      exists c'. split; [apply elem_of_app; by left|done].
Qed.

(** ** Position matrices *)
Section Matrices.

Lemma matrix_get (f : nat -> nat -> Vector3D) (n1 n0 i1 i0 : nat)
    (x : Vector3D) :
  v3_get ((fun i => (fun j => f i j) <$> seq 0 n0) <$> seq 0 n1) i1 i0
    = Some x <->
  i1 < n1 /\ i0 < n0 /\ x = f i1 i0.
Proof.
  unfold v3_get. rewrite list_lookup_fmap.
  destruct (seq 0 n1 !! i1) as [i|] eqn:Hi; simpl.
  - apply lookup_seq in Hi as [-> ?]. rewrite list_lookup_fmap.
    destruct (seq 0 n0 !! i0) as [j|] eqn:Hj; simpl.
    + apply lookup_seq in Hj as [-> ?]. simpl.
      split; [intros [= <-]; auto|intros (_ & _ & ->); auto].
    + apply lookup_ge_None in Hj. rewrite length_seq in Hj.
      split; [done|lia].
  - apply lookup_ge_None in Hi. rewrite length_seq in Hi. split; [done|lia].
Qed.

Lemma matrix_row0 (f : nat -> nat -> Vector3D) (n1 n0 : nat) :
  0 < n1 ->
  exists row0,
    ((fun i => (fun j => f i j) <$> seq 0 n0) <$> seq 0 n1) !! 0 = Some row0 /\
    length row0 = n0.
Proof.
  intros Hn. destruct n1 as [|n1]; [lia|]. simpl. eexists. split; [done|].
  by rewrite length_fmap, length_seq.
Qed.

Lemma matrix_length (f : nat -> nat -> Vector3D) (n1 n0 : nat) :
  length ((fun i => (fun j => f i j) <$> seq 0 n0) <$> seq 0 n1) = n1.
Proof. by rewrite length_fmap, length_seq. Qed.

End Matrices.

(** ** completeBinning on a whole grid *)
Section Completion.

Variable W : World.
Implicit Types (g : SurfaceGrid) (sVector : SurfaceVector).

(** With no surface the slow path visits every cell and changes none. *)
Lemma completeCells_nil (v3Matrix : V3Matrix) cells st :
  (forall io1 io0, (io1, io0) ∈ cells ->
     is_Some (grid_get (cb_grid st) 0 io1 io0) /\
     is_Some (v3_get v3Matrix io1 io0)) ->
  exists st', completeCells W v3Matrix [] cells st = Some st' /\
    cb_grid st' = cb_grid st /\ cb_testPaths st' = cb_testPaths st.
Proof.
  unfold completeCells. revert st.
  induction cells as [|[c1 c0] cells IH]; intros st Hin; [by exists st|].
  destruct (Hin c1 c0) as [[p Hp] [x Hx]]; [by left|].
  assert (Hstep : completeCell W v3Matrix [] c1 st c0 =
            Some (mkCBState (cb_grid st) (S (cb_binCompleted st))
                    (cb_testPaths st))).
  { unfold completeCell. rewrite Hp, Hx. done. }
  destruct (IH (mkCBState (cb_grid st) (S (cb_binCompleted st))
                  (cb_testPaths st))) as (st' & Hrun & Hg & Hn).
  { intros io1 io0 Hc. simpl. apply Hin. by right. }
  exists st'. split; [|done]. apply foldM_cons_Some. eauto.
Qed.

(** What [completeBinning] does to one cell: a cell never loses its
    surface, a cell outside the matrix is untouched, and on the slow path a
    cell of the matrix with a surface nearer than [minPath0] is filled. *)
Lemma completeBinning_cell u (v3Matrix : V3Matrix) sVector g st j2 j1 j0
    before :
  completeBinning W u v3Matrix sVector g = Some st ->
  grid_get g j2 j1 j0 = Some before ->
  exists after row0,
    v3Matrix !! 0 = Some row0 /\
    grid_get (cb_grid st) j2 j1 j0 = Some after /\
    (is_Some before -> is_Some after) /\
    (forall sposition sf,
       j2 = 0 -> v3_get v3Matrix j1 j0 = Some sposition ->
       j0 < length row0 ->
       nGridPoints v3Matrix row0 <> size_t (length sVector) ->
       Some sf ∈ sVector ->
       (testPathOf W sposition sf <? minPath0)%float = true ->
       is_Some after).
Proof.
  intros Hrun Hget.
  destruct (v3Matrix !! 0) as [row0|] eqn:Hrow0;
    [|by unfold completeBinning in Hrun; rewrite Hrow0 in Hrun].
  destruct (decide (nGridPoints v3Matrix row0 = size_t (length sVector)))
    as [Hfast|Hslow].
  { rewrite (completeBinning_fast W u _ _ _ _ Hrow0 Hfast) in Hrun.
    simplify_eq/=. exists before, row0. repeat split; auto. done. }
  rewrite (completeBinning_slow W u _ _ _ _ Hrow0 Hslow) in Hrun.
  apply completeCells_spec in Hrun as (Hout & Hframe & _);
    [|apply NoDup_cellsOf]. simpl in *.
  destruct (decide (j2 = 0 /\ (j1, j0) ∈ cellsOf (length v3Matrix)
                                           (length row0))) as [[-> Hin]|Hnot].
  - destruct (Hout _ _ Hin) as (sp & b & a & m & Hsp & Hb & Ha & Hsel).
    simplify_eq. exists a, row0. repeat split; auto.
    + destruct Hsel as [(-> & _)|(? & ? & -> & _)]; eauto.
    + intros sposition sf _ Hpos _ _ Hsf Hnear. simplify_eq.
      destruct Hsel as [(-> & _ & Hall)|(? & ? & -> & _)]; eauto.
      rewrite (Hall _ Hsf) in Hnear. done.
  - exists before, row0. rewrite Hframe by tauto. repeat split; auto.
    intros sposition sf -> Hpos Hlt _ _ _. exfalso. apply Hnot.
    split; [done|]. apply elem_of_cellsOf. split; [|done].
    unfold v3_get in Hpos. destruct (v3Matrix !! j1) eqn:Hr; [|done].
    by eapply lookup_lt_Some.
Qed.

End Completion.

(** ** Constructions *)

Lemma last_such {A : Type} (P : A -> Prop) `{!forall x, Decision (P x)}
    (l : list A) :
  (exists x, x ∈ l /\ P x) ->
  exists l1 x l2, l = l1 ++ x :: l2 /\ P x /\ forall y, y ∈ l2 -> ~ P y.
Proof.
  induction l as [|a l IH]; intros (x & Hin & Hx).
  - by apply elem_of_nil in Hin.
  - destruct (decide (Exists P l)) as [Hex|Hno].
    + apply Exists_exists in Hex as (y & Hy & HPy).
      destruct IH as (l1 & z & l2 & -> & Hz & Hlast); [by eauto|].
      by exists (a :: l1), z, l2.
    + assert (forall y, y ∈ l -> ~ P y) as Hall.
      { intros y Hy HPy. apply Hno, Exists_exists. eauto. }
      apply elem_of_cons in Hin as [->|Hin]; [|by destruct (Hall x)].
      by exists [], a, l.
Qed.

Section Construction.

Variable W : World.
Variable u : BinUtility.
Implicit Types (g : SurfaceGrid) (surfaces : SurfaceVector).

Lemma completeBinning_shape (v3Matrix : V3Matrix) surfaces g st j2 j1 j0 :
  completeBinning W u v3Matrix surfaces g = Some st ->
  is_Some (grid_get (cb_grid st) j2 j1 j0) <-> is_Some (grid_get g j2 j1 j0).
Proof.
  intros Hrun. split.
  - intros Hafter.
    destruct (v3Matrix !! 0) as [row0|] eqn:Hrow0;
      [|by unfold completeBinning in Hrun; rewrite Hrow0 in Hrun].
    destruct (decide (nGridPoints v3Matrix row0 = size_t (length surfaces)))
      as [Hfast|Hslow].
    { rewrite (completeBinning_fast W u _ _ _ _ Hrow0 Hfast) in Hrun.
      by simplify_eq/=. }
    rewrite (completeBinning_slow W u _ _ _ _ Hrow0 Hslow) in Hrun.
    apply completeCells_spec in Hrun as (Hout & Hframe & _);
      [|apply NoDup_cellsOf]. simpl in *.
    destruct (decide (j2 = 0 /\ (j1, j0) ∈ cellsOf (length v3Matrix)
                                             (length row0)))
      as [[-> Hin]|Hnot].
    + destruct (Hout _ _ Hin) as (sp & b & a & m & _ & Hb & _). eauto.
    + rewrite Hframe in Hafter by tauto. done.
  - intros [before Hbefore].
    destruct (completeBinning_cell W u _ _ _ _ _ _ _ _ Hrun Hbefore)
      as (after & _ & _ & Hafter & _). eauto.
Qed.

(** Placement followed by completion on the grid of a construction, whose
    position matrix has [n1] rows of [n0] centers [center io1 io0]. *)
Lemma construction_filled (center : nat -> nat -> Vector3D) (n1 n0 : nat)
    surfaces g1 st :
  prefillCylinder W u surfaces [replicate n1 (replicate n0 nullptr)]
    = Some g1 ->
  completeBinning W u
    ((fun i => (fun j => center i j) <$> seq 0 n0) <$> seq 0 n1)
    surfaces g1 = Some st ->
  (forall io1 io0, io1 < n1 -> io0 < n0 ->
     cellCovered W u surfaces (size_t_mul (size_t n1) (size_t n0))
       io1 io0 (center io1 io0)) ->
  gridFilled (cb_grid st).
Proof.
  intros Hfill Hrun Hcov j2 j1 j0 p Hp.
  assert (is_Some (grid_get g1 j2 j1 j0)) as [before Hbefore].
  { apply (completeBinning_shape _ _ _ _ _ _ _ Hrun). eauto. }
  assert (j2 = 0 /\ j1 < n1 /\ j0 < n0) as (-> & Hj1 & Hj0).
  { assert (is_Some (grid_get [replicate n1 (replicate n0 nullptr)]
                       j2 j1 j0)) as [q Hq].
    { apply (prefill_shape W u _ _ _ _ _ _ Hfill). eauto. }
    apply grid_get_replicate in Hq. tauto. }
  destruct (completeBinning_cell W u _ _ _ _ _ _ _ _ Hrun Hbefore)
    as (after & row0 & Hrow0 & Hafter & Hkeep & Hnear).
  rewrite Hafter in Hp. simplify_eq.
  destruct (matrix_row0 center n1 n0) as (row0' & Hrow0' & Hlen); [lia|].
  rewrite Hrow0' in Hrow0. simplify_eq.
  destruct (Hcov j1 j0 Hj1 Hj0) as [Hplaced|(Hcount & sf & Hsf & Hlt)].
  - apply Hkeep.
    destruct (last_such (placedAt W u (j0, j1, 0)) surfaces)
      as (l1 & [sf|] & l2 & -> & Ht & Hlast); [| |done].
    { destruct Hplaced as (sf & ? & ?). by exists (Some sf). }
    simpl in Ht.
    pose proof (prefill_last W u _ _ _ l1 sf l2 Hfill eq_refl) as Hcell.
    rewrite Ht in Hcell. unfold grid_at in Hcell. simpl in Hcell.
    rewrite Hcell in Hbefore; [by simplify_eq|].
    intros sf' Hin Ht'. by apply (Hlast _ Hin).
  - apply (Hnear (center j1 j0) sf); auto.
    + by apply matrix_get.
    + unfold nGridPoints. by rewrite matrix_length.
Qed.

End Construction.

(** ** Constructions on an empty list of surfaces *)
Section EmptyInput.

Variable W : World.

Lemma completeBinning_nil (u : BinUtility) (center : nat -> nat -> Vector3D)
    (n1 n0 : nat) (g : SurfaceGrid) :
  0 < n1 ->
  (forall io1 io0, io1 < n1 -> io0 < n0 -> is_Some (grid_get g 0 io1 io0)) ->
  exists st,
    completeBinning W u
      ((fun i => (fun j => center i j) <$> seq 0 n0) <$> seq 0 n1) [] g
      = Some st /\
    cb_grid st = g /\ cb_testPaths st = 0.
Proof.
  intros Hn1 Hshape.
  destruct (matrix_row0 center n1 n0 Hn1) as (row0 & Hrow0 & Hlen).
  set (m := (fun i => (fun j => center i j) <$> seq 0 n0) <$> seq 0 n1) in *.
  destruct (decide (nGridPoints m row0 = size_t (length (@nil SurfacePtr))))
    as [Hfast|Hslow].
  - rewrite (completeBinning_fast W u _ _ _ _ Hrow0 Hfast). by eexists.
  - rewrite (completeBinning_slow W u _ _ _ _ Hrow0 Hslow).
    apply completeCells_nil. intros io1 io0 [H1 H0]%elem_of_cellsOf.
    unfold m in H1. rewrite matrix_length in H1. rewrite Hlen in H0.
    split; [by apply Hshape|]. exists (center io1 io0).
    by apply matrix_get.
Qed.

Lemma replicate_grid_null (n1 n0 : nat) io2 io1 io0 p :
  grid_get [replicate n1 (replicate n0 nullptr)] io2 io1 io0 = Some p ->
  p = nullptr.
Proof. intros H%grid_get_replicate. tauto. Qed.

Lemma replicate_grid_in_range (n1 n0 : nat) io1 io0 :
  io1 < n1 -> io0 < n0 ->
  is_Some (grid_get [replicate n1 (replicate n0 nullptr)] 0 io1 io0).
Proof. intros. exists nullptr. by apply grid_get_replicate. Qed.

Lemma finish_nil (u : BinUtility) (center : nat -> nat -> Vector3D)
    (n1 n0 : nat) :
  0 < n1 ->
  (st ← completeBinning W u
          ((fun i => (fun j => center i j) <$> seq 0 n0) <$> seq 0 n1) []
          [replicate n1 (replicate n0 nullptr)];
   let sArray := mkSurfaceArray (cb_grid st) u in
   Some (sArray, registerNeighbourHood W sArray)) =
  Some (mkSurfaceArray [replicate n1 (replicate n0 nullptr)] u, []).
Proof.
  intros Hn1.
  destruct (completeBinning_nil u center n1 n0
              [replicate n1 (replicate n0 nullptr)] Hn1)
    as (st & -> & Hg & _); [apply replicate_grid_in_range|].
  cbn [mbind option_bind]. rewrite Hg. f_equal. f_equal.
  apply registerNeighbourHood_null. apply replicate_grid_null.
Qed.

Lemma surfaceArrayOnCylinder_nil (R minPhi maxPhi halfZ : float)
    (binsPhi binsZ : nat) (transform : option Transform3D) :
  0 < binsZ ->
  surfaceArrayOnCylinder W [] R minPhi maxPhi halfZ binsPhi binsZ transform =
  Some (mkSurfaceArray [replicate binsZ (replicate binsPhi nullptr)]
          (cylinderUtility minPhi maxPhi halfZ binsPhi binsZ transform), []).
Proof.
  intros Hz. unfold surfaceArrayOnCylinder, cylinderPositions.
  cbn [cylinderUtility bu_add BinUtility1 binningData app lookup list_lookup
       mbind option_bind prefillCylinder foldM].
  by apply (finish_nil _ (fun iz iphi => mkVector3D _ _ _)).
Qed.

Lemma surfaceArrayOnDisc_nil (minR maxR minPhi maxPhi : float)
    (binsR binsPhi : nat) (transform : option Transform3D) :
  0 < binsPhi ->
  surfaceArrayOnDisc W [] minR maxR minPhi maxPhi binsR binsPhi transform =
  Some (mkSurfaceArray [replicate binsPhi (replicate binsR nullptr)]
          (discUtility minR maxR minPhi maxPhi binsR binsPhi transform), []).
Proof.
  intros Hphi. unfold surfaceArrayOnDisc, discPositions.
  assert (exists bd0 bd1,
    binningData (discUtility minR maxR minPhi maxPhi binsR binsPhi transform)
      = [bd0; bd1]) as (bd0 & bd1 & ->).
  { unfold discUtility. destruct (decide (binsR = 1)); simpl; eauto. }
  cbn [lookup list_lookup mbind option_bind prefillDisc foldM].
  by apply (finish_nil _ (fun iphi ir => mkVector3D _ _ _)).
Qed.

End EmptyInput.

(** * The claims *)

(** C7. When the number of grid points, [v3Matrix.size() *
    v3Matrix[0].size()], equals the number of surfaces, [completeBinning]
    returns at once: the grid it leaves is the grid it was given, and no
    distance from a surface to a bin center has been evaluated. *)
Theorem completeBinning_fast_path (W : World) (u : BinUtility)
    (v3Matrix : V3Matrix) (row0 : V3Vector) (sVector : SurfaceVector)
    (sGrid : SurfaceGrid) :
  v3Matrix !! 0 = Some row0 ->
  nGridPoints v3Matrix row0 = size_t (length sVector) ->
  exists st,
    completeBinning W u v3Matrix sVector sGrid = Some st /\
    cb_grid st = sGrid /\ cb_testPaths st = 0 /\ cb_binCompleted st = 0.
Proof.
  intros Hrow0 Heq. eexists.
  split; [by apply completeBinning_fast with row0|done].
Qed.

(** Coverage. A construction on a cylinder or on a disc that returns an
    array leaves no cell of its grid empty when every cell is covered: a
    surface of the list is placed in the cell, or the number of cells
    differs from the number of surfaces and a surface of the list is nearer
    to the center of the cell than [minPath0]. *)
Theorem construction_covers_grid (W : World) (surfaces : SurfaceVector) :
  (forall R minPhi maxPhi halfZ binsPhi binsZ transform sArray calls,
     let u := cylinderUtility minPhi maxPhi halfZ binsPhi binsZ transform in
     surfaceArrayOnCylinder W surfaces R minPhi maxPhi halfZ binsPhi binsZ
       transform = Some (sArray, calls) ->
     (forall v3Matrix io1 io0 sposition,
        cylinderPositions W u R binsPhi binsZ = Some v3Matrix ->
        v3_get v3Matrix io1 io0 = Some sposition ->
        cellCovered W u surfaces (size_t_mul (size_t binsZ) (size_t binsPhi))
          io1 io0 sposition) ->
     gridFilled (objectGrid sArray)) /\
  (forall minR maxR minPhi maxPhi binsR binsPhi transform sArray calls,
     let u := discUtility minR maxR minPhi maxPhi binsR binsPhi transform in
     surfaceArrayOnDisc W surfaces minR maxR minPhi maxPhi binsR binsPhi
       transform = Some (sArray, calls) ->
     (forall zsum sGrid1 v3Matrix io1 io0 sposition,
        prefillDisc W u surfaces [replicate binsPhi (replicate binsR nullptr)]
          = Some (zsum, sGrid1) ->
        discPositions W u (averageZ zsum (length surfaces)) binsR binsPhi
          = Some v3Matrix ->
        v3_get v3Matrix io1 io0 = Some sposition ->
        cellCovered W u surfaces (size_t_mul (size_t binsPhi) (size_t binsR))
          io1 io0 sposition) ->
     gridFilled (objectGrid sArray)).
Proof.
  split.
  - intros R minPhi maxPhi halfZ binsPhi binsZ transform sArray calls u
      Hrun Hcov.
    unfold surfaceArrayOnCylinder in Hrun. fold u in Hrun.
    destruct (cylinderPositions W u R binsPhi binsZ) as [m|] eqn:Hm;
      [|done].
    cbn [mbind option_bind] in Hrun.
    destruct (prefillCylinder W u surfaces _) as [g1|] eqn:Hfill; [|done].
    cbn [mbind option_bind] in Hrun.
    destruct (completeBinning W u m surfaces g1) as [st|] eqn:Hcb; [|done].
    simplify_eq/=. unfold cylinderPositions in Hm. simpl in Hm.
    simplify_eq. eapply (construction_filled W u); [done|exact Hcb|].
    intros io1 io0 H1 H0. eapply Hcov; [done|]. by apply matrix_get.
  - intros minR maxR minPhi maxPhi binsR binsPhi transform sArray calls u
      Hrun Hcov.
    unfold surfaceArrayOnDisc in Hrun. fold u in Hrun.
    destruct (prefillDisc W u surfaces _) as [[zsum g1]|] eqn:Hfill; [|done].
    cbn [mbind option_bind] in Hrun.
    destruct (discPositions W u _ binsR binsPhi) as [m|] eqn:Hm; [|done].
    cbn [mbind option_bind] in Hrun.
    destruct (completeBinning W u m surfaces g1) as [st|] eqn:Hcb; [|done].
    simplify_eq/=. specialize (fun i1 i0 sp => Hcov _ _ _ i1 i0 sp eq_refl Hm).
    apply prefillDisc_grid in Hfill.
    assert (exists bd0 bd1, binningData u = [bd0; bd1]) as (bd0 & bd1 & Hbd).
    { unfold u, discUtility. destruct (decide (binsR = 1)); simpl; eauto. }
    unfold discPositions in Hm. rewrite Hbd in Hm. simpl in Hm.
    simplify_eq. eapply (construction_filled W u); [done|exact Hcb|].
    intros io1 io0 H1 H0. eapply Hcov. by apply matrix_get.
Qed.

(** C10. On an empty list of surfaces and with at least one bin along each
    axis, [surfaceArrayOnCylinder] does not fault: it returns the array
    whose [binsZ * binsPhi] cells are all null, and registers no
    neighbour. *)
Theorem cylinder_empty_input (W : World) (R minPhi maxPhi halfZ : float)
    (binsPhi binsZ : nat) (transform : option Transform3D) :
  1 <= binsPhi -> 1 <= binsZ ->
  exists sArray,
    surfaceArrayOnCylinder W [] R minPhi maxPhi halfZ binsPhi binsZ transform
      = Some (sArray, []) /\
    objectGrid sArray = [replicate binsZ (replicate binsPhi nullptr)] /\
    forall io1 io0, io1 < binsZ -> io0 < binsPhi ->
      grid_get (objectGrid sArray) 0 io1 io0 = Some nullptr.
Proof.
  intros _ Hz. eexists. split; [by apply surfaceArrayOnCylinder_nil|].
  simpl. split; [done|]. intros io1 io0 ? ?. by apply grid_get_replicate.
Qed.

(** C4, as amended. On an empty list of surfaces and with at least one bin
    along each axis, [surfaceArrayOnDisc] raises no error: the mean z is
    the double [0 / 0], a NaN, and the call returns the array whose
    [binsPhi * binsR] cells are all null, and registers no neighbour. *)
Theorem disc_empty_input (W : World) (minR maxR minPhi maxPhi : float)
    (binsR binsPhi : nat) (transform : option Transform3D) :
  1 <= binsR -> 1 <= binsPhi ->
  PrimFloat.is_nan (averageZ 0 (length (@nil SurfacePtr))) = true /\
  exists sArray,
    surfaceArrayOnDisc W [] minR maxR minPhi maxPhi binsR binsPhi transform
      = Some (sArray, []) /\
    objectGrid sArray = [replicate binsPhi (replicate binsR nullptr)].
Proof.
  intros _ Hphi. split; [by vm_compute|].
  eexists. split; [by apply surfaceArrayOnDisc_nil|done].
Qed.

(** C9. For a bin that holds a surface with an element,
    [registerNeighbourHood] calls [registerNeighbours] on that element once
    for each surface of the cluster of the bin, every time with a list of
    at most one element; so, the last call winning, no element ends with
    more than one registered neighbour. *)
Theorem registerNeighbourHood_single_neighbour (W : World)
    (sArray : SurfaceArray) (io2 io1 io0 : nat) (b : Surface)
    (bElement : Element) :
  grid_get (objectGrid sArray) io2 io1 io0 = Some (Some b) ->
  associatedDetectorElement W b = Some bElement ->
  let calls := registerCell W sArray io2 io1 io0 (Some b) in
  length calls = length (objectCluster W sArray (io0, io1, io2)) /\
  (forall c, c ∈ calls ->
     c ∈ registerNeighbourHood W sArray /\
     rc_element c = bElement /\ length (rc_neighbours c) <= 1) /\
  (forall e l,
     registered (registerNeighbourHood W sArray) !! e = Some l ->
     length l <= 1).
Proof.
  intros Hget He calls. split; [|split].
  - unfold calls, registerCell. rewrite He. by rewrite length_fmap.
  - intros c Hc.
    assert (c ∈ registerNeighbourHood W sArray) as Hin.
    { apply elem_of_registerNeighbourHood. by exists io2, io1, io0, (Some b). }
    split; [done|]. split; [|by eapply registerNeighbourHood_short].
    apply elem_of_registerCell in Hc as (b' & n & [= <-] & Hel & _).
    congruence.
  - intros e l (c & Hc & _ & <-)%registered_lookup.
    by eapply registerNeighbourHood_short.
Qed.

(** * The code on concrete detectors *)
Section Concrete.

Import Example.
Local Open Scope float_scope.

(** C3. Two surfaces on a cylinder with 8 by 1 bins: placement stores
    surface 0 in bin 0 and surface 1 in bin 1, and [completeBinning] then
    writes surface 1, the nearer one, into every bin, bin 0 included. *)
Theorem completeBinning_overwrites_placed_surface :
  exists sGrid1 st,
    prefillCylinder worldFar (utility 8 1) [Some 0; Some 1]%nat
      [replicate 1 (replicate 8 nullptr)] = Some sGrid1 /\
    grid_get sGrid1 0 0 0 = Some (Some 0%nat) /\
    completeBinning worldFar (utility 8 1) positions8 [Some 0; Some 1]%nat
      sGrid1 = Some st /\
    grid_get (cb_grid st) 0 0 0 = Some (Some 1%nat) /\
    cb_grid st = [[replicate 8 (Some 1%nat)]].
Proof.
  eexists _, _. split; [vm_compute; reflexivity|].
  split; [vm_compute; reflexivity|].
  split; [vm_compute; reflexivity|].
  split; vm_compute; reflexivity.
Qed.

(** C2. Two surfaces that fall into the same bin of a cylinder with 2 by 1
    bins. There are as many surfaces as bins, so [completeBinning] takes
    its fast path, where it reports that no bin is empty, and returns at
    once: bin 1 of the returned array is null. *)
Theorem fast_path_leaves_empty_cell :
  exists sArray calls,
    surfaceArrayOnCylinder world8 [Some 0; Some 1]%nat 10 (- pi) pi 5 2 1 None
      = Some (sArray, calls) /\
    objectGrid sArray = [[[Some 1%nat; nullptr]]] /\
    ~ gridFilled (objectGrid sArray).
Proof.
  eexists _, _. split; [vm_compute; reflexivity|].
  split; [vm_compute; reflexivity|].
  intros Hfilled. destruct (Hfilled 0 0 1 nullptr)%nat as [? ?]; [|done].
  vm_compute. reflexivity.
Qed.

(** Against C4: a disc with 1 by 4 bins and no surface. The call returns an
    array of empty bins; no error is raised. *)
Lemma disc_empty_input_returns_array :
  exists sArray,
    surfaceArrayOnDisc world8 [] 1 10 (- pi) pi 1 4 None
      = Some (sArray, []) /\
    objectGrid sArray = [[[nullptr]; [nullptr]; [nullptr]; [nullptr]]].
Proof. eexists. split; vm_compute; reflexivity. Qed.

(** Against C8: the eight surfaces with one element for every two of them.
    For bin 0, which holds surface 0 of element 100, the cluster holds
    surface 1 of the same element, and element 100 is passed to
    [registerNeighbours] on element 100. *)
Lemma shared_element_self_neighbour :
  exists sArray calls c,
    surfaceArrayOnCylinder worldShared surfaces8 10 (- pi) pi 5 8 1 None
      = Some (sArray, calls) /\
    calls !! 2%nat = Some c /\
    rc_element c ∈ rc_neighbours c.
Proof.
  eexists _, _, (mkRegisterCall 100 [100%nat]).
  split; [vm_compute; reflexivity|]. split; [vm_compute; reflexivity|].
  simpl. by left.
Qed.

Lemma completeBinning_fast_path_witness :
  exists st,
    completeBinning world8 (utility 8 1) positions8 surfaces8 [[surfaces8]]
      = Some st /\
    cb_grid st = [[surfaces8]] /\ cb_testPaths st = 0%nat /\
    cb_binCompleted st = 0%nat.
Proof.
  eapply (completeBinning_fast_path world8 (utility 8 1) positions8);
    [vm_compute; reflexivity|vm_compute; reflexivity].
Defined.

Lemma construction_covers_grid_witness :
  (exists sArray calls,
     surfaceArrayOnCylinder world8 [Some 0%nat] 10 (- pi) pi 5 2 1 None
       = Some (sArray, calls) /\
     gridFilled (objectGrid sArray)) /\
  (exists sArray calls,
     surfaceArrayOnDisc world8 [Some 0%nat] 5 15 (- pi) pi 1 2 None
       = Some (sArray, calls) /\
     gridFilled (objectGrid sArray)).
Proof.
  split.
  - eexists _, _. split; [vm_compute; reflexivity|].
    eapply (proj1 (construction_covers_grid world8 [Some 0%nat])
              10 (- pi) pi 5 2%nat 1%nat None); [vm_compute; reflexivity|].
    intros m io1 io0 sp Hm Hget. right. split; [by vm_compute|].
    exists 0%nat. split; [by left|].
    vm_compute in Hm. injection Hm as <-.
    destruct io1 as [|io1]; [|destruct io1; done].
    destruct io0 as [|[|io0]]; [| |destruct io0; done].
    + injection Hget as <-. vm_compute. reflexivity.
    + injection Hget as <-. vm_compute. reflexivity.
  - eexists _, _. split; [vm_compute; reflexivity|].
    eapply (proj2 (construction_covers_grid world8 [Some 0%nat])
              5 15 (- pi) pi 1%nat 2%nat None); [vm_compute; reflexivity|].
    intros zsum g1 m io1 io0 sp Hfill Hm Hget. right.
    split; [by vm_compute|].
    exists 0%nat. split; [by left|].
    vm_compute in Hfill. injection Hfill as <- <-.
    vm_compute in Hm. injection Hm as <-.
    destruct io1 as [|[|io1]]; [| |destruct io1; done].
    + destruct io0 as [|io0]; [|destruct io0; done].
      injection Hget as <-. vm_compute. reflexivity.
    + destruct io0 as [|io0]; [|destruct io0; done].
      injection Hget as <-. vm_compute. reflexivity.
Defined.

Lemma cylinder_empty_input_witness :
  exists sArray,
    surfaceArrayOnCylinder world8 [] 10 (- pi) pi 5 2 2 None
      = Some (sArray, []) /\
    objectGrid sArray = [replicate 2 (replicate 2 nullptr)] /\
    forall io1 io0, (io1 < 2)%nat -> (io0 < 2)%nat ->
      grid_get (objectGrid sArray) 0 io1 io0 = Some nullptr.
Proof.
  apply (cylinder_empty_input world8 10 (- pi) pi 5 2 2 None); lia.
Defined.

Lemma disc_empty_input_witness :
  PrimFloat.is_nan (averageZ 0 (length (@nil SurfacePtr))) = true /\
  exists sArray,
    surfaceArrayOnDisc world8 [] 1 10 (- pi) pi 1 4 None
      = Some (sArray, []) /\
    objectGrid sArray = [replicate 4 (replicate 1 nullptr)].
Proof.
  apply (disc_empty_input world8 1 10 (- pi) pi 1 4 None); lia.
Defined.

Lemma registerNeighbourHood_single_neighbour_witness :
  let sArray := mkSurfaceArray [[surfaces8]] (utility 8 1) in
  let calls := registerCell world8 sArray 0 0 0 (Some 0%nat) in
  length calls = length (objectCluster world8 sArray (0, 0, 0)%nat) /\
  (forall c, c ∈ calls ->
     c ∈ registerNeighbourHood world8 sArray /\
     rc_element c = 100%nat /\ (length (rc_neighbours c) <= 1)%nat) /\
  (forall e l,
     registered (registerNeighbourHood world8 sArray) !! e = Some l ->
     (length l <= 1)%nat).
Proof.
  intros sArray.
  apply (registerNeighbourHood_single_neighbour world8 sArray 0 0 0 0 100);
    reflexivity.
Defined.

End Concrete.

(** * Further properties *)

(** ** completeBinning: faults, cost and frame *)
Section CompletionMore.

Variable W : World.
Implicit Types (g : SurfaceGrid) (sVector : SurfaceVector).

Lemma fltb_is_number (a c : float) :
  (a <? c)%float = true -> PrimFloat.is_nan a = false.
Proof.
  unfold PrimFloat.is_nan.
  rewrite FloatAxioms.ltb_spec, FloatAxioms.eqb_spec, SFltb_Lt.
  unfold SFeqb. destruct (Prim2SF a) as [[]|[]| |[] m e]; simpl; try done.
  all: intros _; rewrite Z.compare_refl, Pos.compare_cont_refl; done.
Qed.

(** Among distances that are numbers, the first nearest surface is unique. *)
Lemma firstNearest_unique sposition sVector i sf i' sf' :
  PrimFloat.is_nan (testPathOf W sposition sf) = false ->
  PrimFloat.is_nan (testPathOf W sposition sf') = false ->
  firstNearest W sposition sVector i sf ->
  firstNearest W sposition sVector i' sf' ->
  i = i' /\ sf = sf'.
Proof.
  intros Hn Hn' (Hi & Hmin & Hfirst) (Hi' & Hmin' & Hfirst').
  assert (forall a b : float,
    PrimFloat.is_nan a = false -> PrimFloat.is_nan b = false ->
    (b <? a)%float = false -> (a <=? b)%float = true) as Htotal.
  { intros a b Ha Hb. unfold PrimFloat.is_nan in Ha, Hb.
    rewrite FloatAxioms.eqb_spec in Ha, Hb.
    rewrite FloatAxioms.ltb_spec, FloatAxioms.leb_spec, SFleb_Le.
    intros Hlt. apply SFcompare_total.
    - intros E. by rewrite E in Ha.
    - intros E. by rewrite E in Hb.
    - intros Hc%SFltb_Lt. congruence. }
  destruct (lt_eq_lt_dec i i') as [[Hlt| ->]|Hlt].
  - pose proof (Hfirst' i sf Hlt Hi) as Hc.
    rewrite Htotal in Hc; [done|done|done|].
    apply Hmin. apply list_elem_of_lookup. eauto.
  - split; [done|]. congruence.
  - pose proof (Hfirst i' sf' Hlt Hi') as Hc.
    rewrite Htotal in Hc; [done|done|done|].
    apply Hmin'. apply list_elem_of_lookup. eauto.
Qed.

(** The loop over [sVector] faults exactly on a null entry. *)
Lemma nearest_loop_is_Some io1 io0 sposition sVector st :
  is_Some (grid_get (cs_grid st) 0 io1 io0) ->
  is_Some (foldM (nearestStep W io1 io0 sposition) sVector st) <->
  Forall is_Some sVector.
Proof.
  revert st. induction sVector as [|p sVector IH]; intros st Hin.
  - split; [by constructor|by eexists].
  - rewrite Forall_cons. cbn [foldM].
    destruct (nearestStep W io1 io0 sposition st p) as [st1|] eqn:Hstep;
      cbn [mbind option_bind].
    + assert (is_Some p /\ is_Some (grid_get (cs_grid st1) 0 io1 io0))
        as [Hp Hin1].
      { unfold nearestStep in Hstep. destruct p as [sf|]; simplify_eq/=.
        split; [by eexists|].
        destruct (testPathOf W sposition sf <? cs_minPath st)%float.
        - destruct (grid_set _ 0 io1 io0 (Some sf)) as [g1|] eqn:Hset;
            simplify_eq/=.
          rewrite (grid_get_set_eq _ _ _ _ _ _ Hset). by eexists.
        - by simplify_eq/=. }
      rewrite (IH st1 Hin1). tauto.
    + split; [by intros [? ?]|]. intros [[sf ->] _]. exfalso.
      unfold nearestStep in Hstep. simpl in Hstep.
      destruct (testPathOf W sposition sf <? cs_minPath st)%float; [|done].
      apply (grid_set_is_Some _ 0 io1 io0 (Some sf)) in Hin.
      destruct Hin as [g1 Hset]. by rewrite Hset in Hstep.
Qed.

Lemma completeCell_is_Some (v3Matrix : V3Matrix) sVector io1 io0 st :
  is_Some (completeCell W v3Matrix sVector io1 st io0) <->
  is_Some (grid_get (cb_grid st) 0 io1 io0) /\
  is_Some (v3_get v3Matrix io1 io0) /\ Forall is_Some sVector.
Proof.
  unfold completeCell.
  destruct (grid_get (cb_grid st) 0 io1 io0) as [sentry|] eqn:Hget; simpl.
  - destruct (v3_get v3Matrix io1 io0) as [sposition|]; simpl.
    + rewrite <- (nearest_loop_is_Some io1 io0 sposition sVector
                   (mkCellState (cb_grid st) sentry minPath0
                      (cb_testPaths st))) by (simpl; rewrite Hget; by eexists).
      destruct (foldM _ sVector _); simpl.
      * split; [intros _; repeat split; by eexists|by eexists].
      * split; [by intros [? ?]|]. intros (_ & _ & [? ?]). done.
    + split; [by intros [? ?]|]. intros (_ & [? ?] & _). done.
  - split; [by intros [? ?]|]. intros ([? ?] & _). done.
Qed.

Lemma completeCell_shape (v3Matrix : V3Matrix) sVector io1 io0 st st'
    j2 j1 j0 :
  completeCell W v3Matrix sVector io1 st io0 = Some st' ->
  is_Some (grid_get (cb_grid st') j2 j1 j0) <->
  is_Some (grid_get (cb_grid st) j2 j1 j0).
Proof.
  intros (Hout & Hframe & _)%completeCell_spec.
  destruct (decide ((j2, j1, j0) = (0, io1, io0))) as [Heq|Hne].
  - simplify_eq. destruct Hout as (sp & b & a & m & _ & -> & -> & _).
    split; by eexists.
  - by rewrite Hframe.
Qed.

Lemma completeCell_binCompleted (v3Matrix : V3Matrix) sVector io1 io0 st st' :
  completeCell W v3Matrix sVector io1 st io0 = Some st' ->
  cb_binCompleted st' = S (cb_binCompleted st).
Proof.
  unfold completeCell. intros H.
  destruct (grid_get _ 0 io1 io0); simplify_eq/=.
  destruct (v3_get v3Matrix io1 io0); simplify_eq/=.
  destruct (foldM _ sVector _); by simplify_eq/=.
Qed.

Lemma completeCells_is_Some (v3Matrix : V3Matrix) sVector cells st :
  is_Some (completeCells W v3Matrix sVector cells st) <->
  forall io1 io0, (io1, io0) ∈ cells ->
    is_Some (grid_get (cb_grid st) 0 io1 io0) /\
    is_Some (v3_get v3Matrix io1 io0) /\ Forall is_Some sVector.
Proof.
  unfold completeCells. revert st.
  induction cells as [|[c1 c0] cells IH]; intros st.
  - split; [|by eexists]. intros _ ?? Hin. by apply elem_of_nil in Hin.
  - cbn [foldM fst snd]. split.
    + intros [st' Hrun].
      destruct (completeCell W v3Matrix sVector c1 st c0) as [st1|] eqn:Hstep;
        [|done].
      simpl in Hrun. intros io1 io0 [Heq|Hin]%elem_of_cons.
      * simplify_eq. apply completeCell_is_Some. by eexists.
      * destruct (proj1 (IH st1) (ex_intro _ _ Hrun) _ _ Hin)
          as (Hg & Hv & Hs).
        split; [|done].
        by apply (completeCell_shape _ _ _ _ _ _ 0 io1 io0 Hstep).
    + intros Hall.
      destruct (proj2 (completeCell_is_Some v3Matrix sVector c1 c0 st))
        as [st1 Hstep]; [apply Hall; by left|].
      rewrite Hstep. simpl. apply IH. intros io1 io0 Hin.
      destruct (Hall io1 io0) as (Hg & Hv & Hs); [by right|].
      split; [|done].
      by apply (completeCell_shape _ _ _ _ _ _ 0 io1 io0 Hstep).
Qed.

Lemma completeCells_binCompleted (v3Matrix : V3Matrix) sVector cells st st' :
  completeCells W v3Matrix sVector cells st = Some st' ->
  cb_binCompleted st' = cb_binCompleted st + length cells.
Proof.
  unfold completeCells. revert st.
  induction cells as [|[c1 c0] cells IH]; intros st Hrun.
  - simplify_eq/=. lia.
  - apply foldM_cons_Some in Hrun as (st1 & Hstep & Hrun). simpl in Hstep.
    apply completeCell_binCompleted in Hstep. apply IH in Hrun.
    simpl. lia.
Qed.

Lemma length_cells_bind (rows : list nat) n0 :
  length (rows ≫= fun io1 => pair io1 <$> seq 0 n0) = length rows * n0.
Proof.
  induction rows as [|io1 rows IH]; [done|].
  change (length ((pair io1 <$> seq 0 n0) ++
                  (rows ≫= fun io1 => pair io1 <$> seq 0 n0)) =
          length (io1 :: rows) * n0).
  rewrite length_app, length_fmap, length_seq, IH. simpl. lia.
Qed.

Lemma length_cellsOf n1 n0 : length (cellsOf n1 n0) = n1 * n0.
Proof. unfold cellsOf. by rewrite length_cells_bind, length_seq. Qed.

End CompletionMore.

Section CompletionExtras.

Variable W : World.
Implicit Types (g : SurfaceGrid) (sVector : SurfaceVector).

Lemma completeBinning_is_Some u (v3Matrix : V3Matrix) sVector g :
  is_Some (completeBinning W u v3Matrix sVector g) <->
  exists row0, v3Matrix !! 0 = Some row0 /\
    (nGridPoints v3Matrix row0 = size_t (length sVector) \/
     forall io1 io0, io1 < length v3Matrix -> io0 < length row0 ->
       is_Some (grid_get g 0 io1 io0) /\
       is_Some (v3_get v3Matrix io1 io0) /\ Forall is_Some sVector).
Proof.
  destruct (v3Matrix !! 0) as [row0|] eqn:Hrow0.
  - destruct (decide (nGridPoints v3Matrix row0 = size_t (length sVector)))
      as [Hfast|Hslow].
    + rewrite (completeBinning_fast W u _ _ _ _ Hrow0 Hfast).
      split; [intros _; exists row0; auto|by eexists].
    + rewrite (completeBinning_slow W u _ _ _ _ Hrow0 Hslow).
      rewrite completeCells_is_Some. simpl. split.
      * intros Hall. exists row0. split; [done|]. right.
        intros io1 io0 H1 H0. apply Hall. by apply elem_of_cellsOf.
      * intros (? & [= <-] & [?|Hall]); [done|].
        intros io1 io0 [H1 H0]%elem_of_cellsOf. by apply Hall.
  - split; [|by intros (? & ? & _)].
    unfold completeBinning. rewrite Hrow0. by intros [? ?].
Qed.

Lemma completeBinning_slow_spec u (v3Matrix : V3Matrix) row0 sVector g st :
  v3Matrix !! 0 = Some row0 ->
  nGridPoints v3Matrix row0 <> size_t (length sVector) ->
  completeBinning W u v3Matrix sVector g = Some st ->
  (forall io1 io0, io1 < length v3Matrix -> io0 < length row0 ->
     cellOutcome W v3Matrix sVector io1 io0 g (cb_grid st)) /\
  (forall j2 j1 j0, j2 <> 0 \/ length v3Matrix <= j1 \/ length row0 <= j0 ->
     grid_get (cb_grid st) j2 j1 j0 = grid_get g j2 j1 j0).
Proof.
  intros Hrow0 Hslow Hrun.
  rewrite (completeBinning_slow W u _ _ _ _ Hrow0 Hslow) in Hrun.
  apply completeCells_spec in Hrun as (Hout & Hframe & _);
    [|apply NoDup_cellsOf]. simpl in *. split.
  - intros io1 io0 H1 H0. apply Hout. by apply elem_of_cellsOf.
  - intros j2 j1 j0 Hout'. apply Hframe. intros ->.
    rewrite elem_of_cellsOf. lia.
Qed.

(** X1. [completeBinning] returns exactly when the position matrix has a
    first row and either the fast path is taken or, for every cell of the
    matrix extents, the grid and the matrix have that cell and no entry of
    the list is null. *)
Theorem completeBinning_no_fault (u : BinUtility) (v3Matrix : V3Matrix)
    (sVector : SurfaceVector) (sGrid : SurfaceGrid) :
  is_Some (completeBinning W u v3Matrix sVector sGrid) <->
  exists row0, v3Matrix !! 0 = Some row0 /\
    (nGridPoints v3Matrix row0 = size_t (length sVector) \/
     forall io1 io0, io1 < length v3Matrix -> io0 < length row0 ->
       is_Some (grid_get sGrid 0 io1 io0) /\
       is_Some (v3_get v3Matrix io1 io0) /\ Forall is_Some sVector).
Proof. apply completeBinning_is_Some. Qed.

(** X2. On the slow path [completeBinning] visits every cell of the matrix
    extents, filled or not: [binCompleted] ends as the number of cells, and
    one distance is evaluated for every cell and every surface. *)
Theorem completeBinning_slow_path_cost (u : BinUtility) (v3Matrix : V3Matrix)
    (row0 : V3Vector) (sVector : SurfaceVector) (sGrid : SurfaceGrid)
    (st : CBState) :
  v3Matrix !! 0 = Some row0 ->
  nGridPoints v3Matrix row0 <> size_t (length sVector) ->
  completeBinning W u v3Matrix sVector sGrid = Some st ->
  cb_binCompleted st = length v3Matrix * length row0 /\
  cb_testPaths st = length v3Matrix * length row0 * length sVector.
Proof.
  intros Hrow0 Hslow Hrun.
  rewrite (completeBinning_slow W u _ _ _ _ Hrow0 Hslow) in Hrun.
  pose proof (completeCells_binCompleted W _ _ _ _ _ Hrun) as Hbin.
  apply completeCells_spec in Hrun as (_ & _ & Hcount);
    [|apply NoDup_cellsOf].
  rewrite length_cellsOf in Hbin, Hcount. simpl in *. lia.
Qed.

Lemma testPathOf_distance (sposition : Vector3D) (sf : Surface) :
  testPathOf W sposition sf = distance W sposition sf.
Proof. reflexivity. Qed.

Lemma minPath0_value : minPath0 = 100000000000%float.
Proof. reflexivity. Qed.

Lemma firstNearest_closest (center : Vector3D) sVector i sf :
  (distance W center sf <? 100000000000)%float = true ->
  firstNearest W center sVector i sf ->
  firstClosest W center sVector i sf.
Proof.
  intros Hlt (Hi & Hmin & Hfirst). unfold firstClosest.
  repeat split; auto.
  intros sf' Hin Hnan. rewrite <- !testPathOf_distance in *.
  eapply fltb_false_leb; eauto.
Qed.

(** X3. On the slow path every cell of the matrix extents, filled or not,
    ends with the first closest surface of the list to its center when a
    surface lies at a distance below 10e10 from its center, and keeps its
    content when none does. *)
Theorem completeBinning_slow_path_cell (u : BinUtility) (v3Matrix : V3Matrix)
    (row0 : V3Vector) (sVector : SurfaceVector) (sGrid : SurfaceGrid)
    (st : CBState) (io1 io0 : nat) :
  v3Matrix !! 0 = Some row0 ->
  nGridPoints v3Matrix row0 <> size_t (length sVector) ->
  completeBinning W u v3Matrix sVector sGrid = Some st ->
  io1 < length v3Matrix -> io0 < length row0 ->
  exists center before after,
    v3_get v3Matrix io1 io0 = Some center /\
    grid_get sGrid 0 io1 io0 = Some before /\
    grid_get (cb_grid st) 0 io1 io0 = Some after /\
    ((after = before /\
      forall sf, Some sf ∈ sVector ->
        (distance W center sf <? 100000000000)%float = false) \/
     (exists i sf, after = Some sf /\
        (distance W center sf <? 100000000000)%float = true /\
        firstClosest W center sVector i sf)).
Proof.
  intros Hrow0 Hslow Hrun H1 H0.
  destruct (completeBinning_slow_spec u _ _ _ _ _ Hrow0 Hslow Hrun)
    as (Hout & _).
  destruct (Hout io1 io0 H1 H0) as (sp & b & a & m & Hsp & Hb & Ha & Hsel).
  exists sp, b, a. repeat split; auto.
  destruct Hsel as [(-> & _ & Hall)|(i & sf & -> & _ & Hlt & Hnear)];
    [left|right].
  - split; [done|]. intros sf Hsf. rewrite <- testPathOf_distance.
    rewrite <- minPath0_value. by apply Hall.
  - rewrite testPathOf_distance, minPath0_value in Hlt.
    exists i, sf. split; [done|]. split; [done|].
    by apply firstNearest_closest.
Qed.

(** X4. [completeBinning] keeps the extents of the grid, and it leaves
    alone every cell outside the matrix extents: a cell of another first
    index, of a row beyond the matrix, or of a column beyond its first
    row. *)
Theorem completeBinning_frame (u : BinUtility) (v3Matrix : V3Matrix)
    (row0 : V3Vector) (sVector : SurfaceVector) (sGrid : SurfaceGrid)
    (st : CBState) :
  completeBinning W u v3Matrix sVector sGrid = Some st ->
  v3Matrix !! 0 = Some row0 ->
  (forall j2 j1 j0,
     is_Some (grid_get (cb_grid st) j2 j1 j0) <->
     is_Some (grid_get sGrid j2 j1 j0)) /\
  (forall j2 j1 j0,
     j2 <> 0 \/ length v3Matrix <= j1 \/ length row0 <= j0 ->
     grid_get (cb_grid st) j2 j1 j0 = grid_get sGrid j2 j1 j0).
Proof.
  intros Hrun Hrow0. split.
  - intros j2 j1 j0. by eapply completeBinning_shape.
  - destruct (decide (nGridPoints v3Matrix row0 = size_t (length sVector)))
      as [Hfast|Hslow].
    + rewrite (completeBinning_fast W u _ _ _ _ Hrow0 Hfast) in Hrun.
      by simplify_eq/=.
    + by destruct (completeBinning_slow_spec u _ _ _ _ _ Hrow0 Hslow Hrun).
Qed.

Lemma completeBinning_content (u : BinUtility) (v3Matrix : V3Matrix)
    (sVector : SurfaceVector) (sGrid : SurfaceGrid) (st : CBState)
    (j2 j1 j0 : nat) (after : SurfacePtr) :
  completeBinning W u v3Matrix sVector sGrid = Some st ->
  grid_get (cb_grid st) j2 j1 j0 = Some after ->
  exists before,
    grid_get sGrid j2 j1 j0 = Some before /\
    (is_Some before -> is_Some after) /\
    (after = before \/ exists sf, after = Some sf /\ Some sf ∈ sVector).
Proof.
  intros Hrun Hafter.
  destruct (proj1 (completeBinning_shape W u _ _ _ _ j2 j1 j0 Hrun))
    as [before Hbefore]; [by eexists|].
  exists before. split; [done|].
  destruct (completeBinning_cell W u _ _ _ _ _ _ _ _ Hrun Hbefore)
    as (after' & row0 & Hrow0 & Hafter' & Hkeep & _).
  rewrite Hafter in Hafter'. simplify_eq. split; [done|].
  destruct (decide (nGridPoints v3Matrix row0 = size_t (length sVector)))
    as [Hfast|Hslow].
  { rewrite (completeBinning_fast W u _ _ _ _ Hrow0 Hfast) in Hrun.
    simplify_eq/=. left. congruence. }
  destruct (completeBinning_slow_spec u _ _ _ _ _ Hrow0 Hslow Hrun)
    as (Hout & Hframe).
  destruct (decide (j2 = 0 /\ j1 < length v3Matrix /\ j0 < length row0))
    as [(-> & H1 & H0)|Hnot].
  - destruct (Hout j1 j0 H1 H0) as (sp & b & a & m & _ & Hb & Ha & Hsel).
    simplify_eq.
    destruct Hsel as [(-> & _)|(i & sf & -> & _ & _ & Hi & _)]; [by left|].
    right. exists sf. split; [done|]. apply list_elem_of_lookup. eauto.
  - left. rewrite Hframe in Hafter by lia. congruence.
Qed.

(** X5. [completeBinning] never empties a cell and never invents a
    surface: a cell that held a surface still holds one, and what a cell
    holds afterwards is what it held before or a surface of the list. *)
Theorem completeBinning_provenance (u : BinUtility) (v3Matrix : V3Matrix)
    (sVector : SurfaceVector) (sGrid : SurfaceGrid) (st : CBState)
    (j2 j1 j0 : nat) (after : SurfacePtr) :
  completeBinning W u v3Matrix sVector sGrid = Some st ->
  grid_get (cb_grid st) j2 j1 j0 = Some after ->
  exists before,
    grid_get sGrid j2 j1 j0 = Some before /\
    (is_Some before -> is_Some after) /\
    (after = before \/ exists sf, after = Some sf /\ Some sf ∈ sVector).
Proof. apply completeBinning_content. Qed.

(** X6. [completeBinning] is idempotent: run again on the grid it returned,
    with the same matrix and list, it returns and leaves every cell as it
    is. *)
Theorem completeBinning_idempotent (u : BinUtility) (v3Matrix : V3Matrix)
    (sVector : SurfaceVector) (sGrid : SurfaceGrid) (st : CBState) :
  completeBinning W u v3Matrix sVector sGrid = Some st ->
  exists st',
    completeBinning W u v3Matrix sVector (cb_grid st) = Some st' /\
    forall j2 j1 j0,
      grid_get (cb_grid st') j2 j1 j0 = grid_get (cb_grid st) j2 j1 j0.
Proof.
  intros Hrun.
  assert (is_Some (completeBinning W u v3Matrix sVector (cb_grid st)))
    as [st' Hrun'].
  { apply completeBinning_is_Some.
    destruct (proj1 (completeBinning_is_Some u v3Matrix sVector sGrid))
      as (row0 & Hrow0 & Hcase); [by eexists|].
    exists row0. split; [done|]. destruct Hcase as [?|Hall]; [by left|].
    right. intros io1 io0 H1 H0. destruct (Hall io1 io0 H1 H0) as (? & ? & ?).
    split; [|done]. by apply (completeBinning_shape W u _ _ _ _ 0 io1 io0 Hrun). }
  exists st'. split; [done|]. intros j2 j1 j0.
  destruct (v3Matrix !! 0) as [row0|] eqn:Hrow0;
    [|by unfold completeBinning in Hrun; rewrite Hrow0 in Hrun].
  destruct (decide (nGridPoints v3Matrix row0 = size_t (length sVector)))
    as [Hfast|Hslow].
  { rewrite (completeBinning_fast W u _ _ _ _ Hrow0 Hfast) in Hrun'.
    by simplify_eq/=. }
  destruct (completeBinning_slow_spec u _ _ _ _ _ Hrow0 Hslow Hrun)
    as (Hout & _).
  destruct (completeBinning_slow_spec u _ _ _ _ _ Hrow0 Hslow Hrun')
    as (Hout' & Hframe').
  destruct (decide (j2 = 0 /\ j1 < length v3Matrix /\ j0 < length row0))
    as [(-> & H1 & H0)|Hnot]; [|apply Hframe'; lia].
  destruct (Hout j1 j0 H1 H0) as (sp & b & a & m & Hsp & Hb & Ha & Hsel).
  destruct (Hout' j1 j0 H1 H0)
    as (sp' & b' & a' & m' & Hsp' & Hb' & Ha' & Hsel').
  rewrite Ha', Ha. simplify_eq. f_equal.
  destruct Hsel' as [(-> & _)|(i' & sf' & -> & _ & Hlt' & Hnear')]; [done|].
  destruct Hsel as [(-> & _ & Hall)|(i & sf & -> & _ & Hlt & Hnear)].
  - destruct Hnear' as (Hi' & _).
    rewrite Hall in Hlt'; [done|]. apply list_elem_of_lookup. eauto.
  - f_equal. symmetry.
    by eapply (firstNearest_unique W sp sVector i sf i' sf');
      eauto using fltb_is_number.
Qed.

End CompletionExtras.

(** ** registerNeighbourHood: where the calls come from *)
Section NeighbourExtras.

Variable W : World.
Implicit Types (sArray : SurfaceArray) (c : RegisterCall).

Lemma registered_is_Some (calls : list RegisterCall) (e : Element) :
  is_Some (registered calls !! e) <-> exists c, c ∈ calls /\ rc_element c = e.
Proof.
  split.
  - intros [l Hl]. apply registered_lookup in Hl as (c & ? & ? & _). eauto.
  - unfold registered. induction calls as [|c' calls IH] using rev_ind.
    + intros (c & Hc & _). by apply elem_of_nil in Hc.
    + intros (c & Hc & He). rewrite foldl_app. simpl.
      unfold registerNeighbours at 1.
      destruct (decide (rc_element c' = e)) as [<-|Hne].
      * rewrite lookup_insert_eq. by eexists.
      * rewrite lookup_insert_ne by done. apply IH.
        apply elem_of_app in Hc as [Hc|Hc%list_elem_of_singleton]; [eauto|].
        congruence.
Qed.

(** X7. Every call that [registerNeighbourHood] makes is made on the
    element of a surface that a bin holds, and every element it passes as a
    neighbour is the element of a surface of the cluster of that bin other
    than the surface of the bin. *)
Theorem registerNeighbourHood_call_origin (sArray : SurfaceArray)
    (c : RegisterCall) :
  c ∈ registerNeighbourHood W sArray ->
  exists io2 io1 io0 b,
    grid_get (objectGrid sArray) io2 io1 io0 = Some (Some b) /\
    associatedDetectorElement W b = Some (rc_element c) /\
    forall e, e ∈ rc_neighbours c ->
      exists n, Some n ∈ objectCluster W sArray (io0, io1, io2) /\
        n <> b /\ associatedDetectorElement W n = Some e.
Proof.
  intros (io2 & io1 & io0 & bSurface & Hget & Hc)%elem_of_registerNeighbourHood.
  apply elem_of_registerCell in Hc as (b & nSurface & -> & Hb & Hn & Hl).
  exists io2, io1, io0, b. repeat split; auto.
  intros e He. rewrite Hl in He.
  apply elem_of_neighbourElementsOf in He as (n & -> & Hne & Hel). eauto.
Qed.

(** X8. After [registerNeighbourHood] an element has a registered list,
    possibly empty, exactly when some bin holds a surface of that element
    and the cluster of that bin is not empty; null bins and surfaces without
    element are skipped. *)
Theorem registerNeighbourHood_registered_domain (sArray : SurfaceArray)
    (e : Element) :
  is_Some (registered (registerNeighbourHood W sArray) !! e) <->
  exists io2 io1 io0 b,
    grid_get (objectGrid sArray) io2 io1 io0 = Some (Some b) /\
    associatedDetectorElement W b = Some e /\
    objectCluster W sArray (io0, io1, io2) <> [].
Proof.
  rewrite registered_is_Some. split.
  - intros (c & Hc & <-).
    apply elem_of_registerNeighbourHood in Hc
      as (io2 & io1 & io0 & bSurface & Hget & Hc).
    apply elem_of_registerCell in Hc as (b & nSurface & -> & Hb & Hn & _).
    exists io2, io1, io0, b. repeat split; auto.
    intros Hnil. rewrite Hnil in Hn. by apply elem_of_nil in Hn.
  - intros (io2 & io1 & io0 & b & Hget & Hb & Hne).
    destruct (objectCluster W sArray (io0, io1, io2)) as [|n l] eqn:Hcl;
      [done|].
    exists (mkRegisterCall e (neighbourElementsOf W b n)). split; [|done].
    apply elem_of_registerNeighbourHood. exists io2, io1, io0, (Some b).
    split; [done|]. apply elem_of_registerCell. exists b, n.
    rewrite Hcl. repeat split; auto. by left.
Qed.

End NeighbourExtras.

(** ** Constructions: faults, extents and one-to-one placement *)
Section ConstructionExtras.

Variable W : World.
Variable u : BinUtility.
Implicit Types (g : SurfaceGrid) (surfaces : SurfaceVector).

Lemma size_t_mul_size_t (a b : nat) :
  size_t_mul (size_t a) (size_t b) = size_t (a * b).
Proof.
  unfold size_t_mul, size_t. rewrite Nat2Z.inj_mul.
  symmetry. apply Zmult_mod.
Qed.

Lemma grid_at_replicate (n1 n0 : nat) (t : BinTriple) :
  is_Some (grid_at [replicate n1 (replicate n0 nullptr)] t) <->
  inGrid n1 n0 t.
Proof.
  unfold grid_at, inGrid. split.
  - intros [p Hp]. apply grid_get_replicate in Hp. tauto.
  - intros (? & ? & ?). exists nullptr. by apply grid_get_replicate.
Qed.

Lemma prefill_is_Some surfaces g :
  is_Some (prefillCylinder W u surfaces g) <->
  Forall (fun p => exists sf, p = Some sf /\
            is_Some (grid_at g (tripleOf W u sf))) surfaces.
Proof.
  unfold prefillCylinder. revert g.
  induction surfaces as [|p surfaces IH]; intros g.
  - split; [by constructor|by eexists].
  - rewrite Forall_cons. cbn [foldM]. split.
    + intros [g' Hrun].
      destruct (fillSurface W u g p) as [g1|] eqn:Hstep; [|done].
      simpl in Hrun. apply fillSurface_Some in Hstep as (sf & -> & Hset).
      split.
      * exists sf. split; [done|]. unfold grid_at.
        apply (grid_set_is_Some _ _ _ _ (Some sf)). by eexists.
      * eapply Forall_impl; [apply IH; by eexists|].
        intros q (sf' & -> & Hq). exists sf'. split; [done|].
        unfold grid_at in *.
        by apply (grid_set_shape _ _ _ _ _ _ _ _ _ Hset).
    + intros [(sf & -> & Hsf) Hall].
      unfold grid_at in Hsf.
      apply (grid_set_is_Some _ _ _ _ (Some sf)) in Hsf as [g1 Hset].
      assert (fillSurface W u g (Some sf) = Some g1) as ->.
      { apply fillSurface_Some. eauto. }
      simpl. apply IH. eapply Forall_impl; [exact Hall|].
      intros q (sf' & -> & Hq). exists sf'. split; [done|].
      unfold grid_at in *.
      by apply (grid_set_shape _ _ _ _ _ _ _ _ _ Hset).
Qed.

Lemma prefill_placeable surfaces (n1 n0 : nat) :
  is_Some (prefillCylinder W u surfaces [replicate n1 (replicate n0 nullptr)])
  <-> Forall (placeable W u n1 n0) surfaces.
Proof.
  rewrite prefill_is_Some. apply Forall_proper; [|done].
  intros p. unfold placeable. split; intros (sf & -> & H); exists sf;
    (split; [done|]); by apply grid_at_replicate.
Qed.

Lemma prefillDisc_of_cylinder surfaces g g' :
  prefillCylinder W u surfaces g = Some g' ->
  exists zsum, prefillDisc W u surfaces g = Some (zsum, g').
Proof.
  unfold prefillDisc, prefillCylinder. generalize 0%float. revert g.
  induction surfaces as [|q surfaces IH]; intros g z0 Hrun.
  - simplify_eq/=. by eexists.
  - apply foldM_cons_Some in Hrun as (g1 & Hstep & Hrun).
    destruct q as [sf|]; [|done].
    destruct (IH g1 (z0 + vz (binningPosition W sf binR))%float Hrun)
      as (zsum & Hz).
    exists zsum. apply foldM_cons_Some. eexists. split; [|exact Hz].
    unfold fillSurfaceZ, fillSurface in *. simpl in *.
    destruct (binTriple W u _) as [[b0 b1] b2].
    destruct (grid_set g b2 b1 b0 (Some sf)); by simplify_eq/=.
Qed.

Lemma placeable_is_Some (n1 n0 : nat) surfaces :
  Forall (placeable W u n1 n0) surfaces -> Forall is_Some surfaces.
Proof.
  intros H. eapply Forall_impl; [exact H|].
  intros p (sf & -> & _). by eexists.
Qed.

(** Placement and completion on the grid and matrix of a construction
    return exactly for a matrix with a row and a placeable list. *)
Lemma construction_is_Some (center : nat -> nat -> Vector3D) (n1 n0 : nat)
    surfaces :
  is_Some (prefillCylinder W u surfaces [replicate n1 (replicate n0 nullptr)]
           ≫= completeBinning W u
                ((fun i => (fun j => center i j) <$> seq 0 n0) <$> seq 0 n1)
                surfaces) <->
  0 < n1 /\ Forall (placeable W u n1 n0) surfaces.
Proof.
  split.
  - intros [st Hrun].
    destruct (prefillCylinder W u surfaces _) as [g1|] eqn:Hfill; [|done].
    simpl in Hrun. split.
    + assert (is_Some (completeBinning W u
                 ((fun i => (fun j => center i j) <$> seq 0 n0) <$> seq 0 n1)
                 surfaces g1)) as Hsome by (by eexists).
      apply completeBinning_is_Some in Hsome as (row0 & Hrow0 & _).
      apply lookup_lt_Some in Hrow0. by rewrite matrix_length in Hrow0.
    + apply prefill_placeable. by eexists.
  - intros [Hn1 Hall].
    destruct (proj2 (prefill_placeable surfaces n1 n0) Hall) as [g1 Hfill].
    rewrite Hfill. simpl. apply completeBinning_is_Some.
    destruct (matrix_row0 center n1 n0 Hn1) as (row0 & Hrow0 & Hlen).
    exists row0. split; [done|]. right. intros io1 io0 H1 H0.
    rewrite matrix_length in H1. rewrite Hlen in H0.
    split; [|split].
    + apply (prefill_shape W u _ _ _ 0 io1 io0 Hfill).
      by apply replicate_grid_in_range.
    + exists (center io1 io0). by apply matrix_get.
    + by eapply placeable_is_Some.
Qed.

(** The grid that placement and completion leave: its extents are those of
    the construction and its surfaces are surfaces of the list. *)
Lemma construction_grid (v3Matrix : V3Matrix) (n1 n0 : nat) surfaces g1 st :
  prefillCylinder W u surfaces [replicate n1 (replicate n0 nullptr)]
    = Some g1 ->
  completeBinning W u v3Matrix surfaces g1 = Some st ->
  (forall j2 j1 j0,
     is_Some (grid_get (cb_grid st) j2 j1 j0) <-> inGrid n1 n0 (j0, j1, j2)) /\
  (forall j2 j1 j0 sf,
     grid_get (cb_grid st) j2 j1 j0 = Some (Some sf) -> Some sf ∈ surfaces).
Proof.
  intros Hfill Hrun. split.
  - intros j2 j1 j0.
    rewrite (completeBinning_shape W u _ _ _ _ j2 j1 j0 Hrun).
    rewrite (prefill_shape W u _ _ _ j2 j1 j0 Hfill).
    apply (grid_at_replicate n1 n0 (j0, j1, j2)).
  - intros j2 j1 j0 sf Hget.
    destruct (completeBinning_content W u _ _ _ _ _ _ _ _ Hrun Hget)
      as (before & Hbefore & _ & [<-|(sf' & [= <-] & Hin)]); [|done].
    destruct (prefill_origin W u _ _ _ _ _ _ _ Hfill Hbefore)
      as [Hnull|(sf0 & [= <-] & Hin & _)]; [|done].
    by apply replicate_grid_null in Hnull.
Qed.

Lemma NoDup_fmap_inj {A B : Type} (f : A -> B) (l : list A) (x y : A) :
  NoDup (f <$> l) -> x ∈ l -> y ∈ l -> f x = f y -> x = y.
Proof.
  induction l as [|a l IH]; intros Hnd Hx Hy Heq.
  - by apply elem_of_nil in Hx.
  - rewrite fmap_cons in Hnd. apply NoDup_cons in Hnd as [Ha Hnd].
    apply elem_of_cons in Hx as [->|Hx], Hy as [->|Hy]; auto.
    + destruct Ha. rewrite Heq. by apply list_elem_of_fmap_2.
    + destruct Ha. rewrite <- Heq. by apply list_elem_of_fmap_2.
Qed.

(** As many surfaces as cells, with pairwise distinct bin triples: after
    placement every surface is in its cell and no cell is empty. *)
Lemma one_to_one_placement (n1 n0 : nat) surfaces g1 :
  prefillCylinder W u surfaces [replicate n1 (replicate n0 nullptr)]
    = Some g1 ->
  NoDup (ptrTriple W u <$> surfaces) ->
  length surfaces = n1 * n0 ->
  gridFilled g1 /\
  forall sf, Some sf ∈ surfaces ->
    grid_at g1 (tripleOf W u sf) = Some (Some sf).
Proof.
  intros Hfill Hnd Hlen.
  assert (forall sf, Some sf ∈ surfaces ->
            grid_at g1 (tripleOf W u sf) = Some (Some sf)) as Hcell.
  { intros sf (l1 & l2 & ->)%list_elem_of_split.
    eapply prefill_last; [done|done|].
    intros sf' Hin Heq. rewrite fmap_app, fmap_cons in Hnd.
    apply NoDup_app in Hnd as (_ & _ & Hnd).
    apply NoDup_cons in Hnd as [Hfresh _]. apply Hfresh.
    apply list_elem_of_fmap. exists (Some sf'). simpl. by rewrite Heq. }
  split; [|done].
  assert (Forall (placeable W u n1 n0) surfaces) as Hall.
  { apply prefill_placeable. by eexists. }
  rewrite Forall_forall in Hall.
  set (cellOf := fun p : SurfacePtr =>
         match p with
         | Some sf => ((tripleOf W u sf).1.2, (tripleOf W u sf).1.1)
         | None => (0, 0)
         end).
  assert (cellOf <$> surfaces ≡ₚ cellsOf n1 n0) as Hperm.
  { apply submseteq_length_Permutation;
      [|by rewrite length_fmap, length_cellsOf, Hlen].
    apply NoDup_submseteq.
    - apply NoDup_fmap_2_strong; [|by eapply NoDup_fmap_1].
      intros x y Hx Hy Hxy.
      apply (NoDup_fmap_inj (ptrTriple W u) surfaces); auto.
      destruct (Hall x Hx) as (sx & -> & Hx2 & _).
      destruct (Hall y Hy) as (sy & -> & Hy2 & _). simpl in *.
      destruct (tripleOf W u sx) as [[a0 a1] a2].
      destruct (tripleOf W u sy) as [[b0 b1] b2]. simpl in *.
      by simplify_eq.
    - intros [c1 c0] (p & Hc & Hp)%list_elem_of_fmap.
      destruct (Hall p Hp) as (sf & -> & _ & H1 & H0). simpl in Hc.
      simplify_eq. by apply elem_of_cellsOf. }
  intros j2 j1 j0 p Hp.
  assert (inGrid n1 n0 (j0, j1, j2)) as (Hj2 & Hj1 & Hj0).
  { apply grid_at_replicate. unfold grid_at. simpl.
    apply (prefill_shape W u _ _ _ j2 j1 j0 Hfill). by eexists. }
  simpl in *. subst j2.
  assert ((j1, j0) ∈ cellOf <$> surfaces) as Hin.
  { rewrite Hperm. by apply elem_of_cellsOf. }
  apply list_elem_of_fmap in Hin as (q & Hq & Hqin).
  destruct (Hall q Hqin) as (sf & -> & Hz & _). simpl in Hq.
  pose proof (Hcell sf Hqin) as Hsf. unfold grid_at in Hsf.
  destruct (tripleOf W u sf) as [[b0 b1] b2]. simpl in *. simplify_eq.
  by eexists.
Qed.

End ConstructionExtras.

Section ConstructionTheorems.

Variable W : World.
Implicit Types (surfaces : SurfaceVector).

(** The steps of the two constructions, with the position matrix written
    as the table of its centers. *)
Lemma surfaceArrayOnCylinder_steps (R minPhi maxPhi halfZ : float)
    (binsPhi binsZ : nat) (transform : option Transform3D) :
  let u := cylinderUtility minPhi maxPhi halfZ binsPhi binsZ transform in
  exists center : nat -> nat -> Vector3D,
    forall surfaces,
      surfaceArrayOnCylinder W surfaces R minPhi maxPhi halfZ binsPhi binsZ
        transform =
      (sGrid1 ← prefillCylinder W u surfaces
                  [replicate binsZ (replicate binsPhi nullptr)];
       st ← completeBinning W u
              ((fun i => (fun j => center i j) <$> seq 0 binsPhi)
                 <$> seq 0 binsZ) surfaces sGrid1;
       Some (mkSurfaceArray (cb_grid st) u,
             registerNeighbourHood W (mkSurfaceArray (cb_grid st) u))).
Proof.
  intros u. eexists (fun iz iphi => mkVector3D _ _ _). intros surfaces.
  unfold surfaceArrayOnCylinder, cylinderPositions. fold u.
  cbn [u cylinderUtility bu_add BinUtility1 binningData app lookup
       list_lookup mbind option_bind].
  reflexivity.
Qed.

Lemma surfaceArrayOnDisc_steps (minR maxR minPhi maxPhi : float)
    (binsR binsPhi : nat) (transform : option Transform3D) :
  let u := discUtility minR maxR minPhi maxPhi binsR binsPhi transform in
  exists center : float -> nat -> nat -> Vector3D,
    forall surfaces,
      surfaceArrayOnDisc W surfaces minR maxR minPhi maxPhi binsR binsPhi
        transform =
      ('(zsum, sGrid1) ← prefillDisc W u surfaces
                  [replicate binsPhi (replicate binsR nullptr)];
       st ← completeBinning W u
              ((fun i => (fun j =>
                  center (averageZ zsum (length surfaces)) i j)
                  <$> seq 0 binsR) <$> seq 0 binsPhi) surfaces sGrid1;
       Some (mkSurfaceArray (cb_grid st) u,
             registerNeighbourHood W (mkSurfaceArray (cb_grid st) u))).
Proof.
  intros u.
  assert (exists bd0 bd1, binningData u = [bd0; bd1]) as (bd0 & bd1 & Hbd).
  { unfold u, discUtility. destruct (decide (binsR = 1)); simpl; eauto. }
  exists (fun z iphi ir =>
            mkVector3D (centerValue W bd0 ir * cos W (centerValue W bd1 iphi))
                       (centerValue W bd0 ir * sin W (centerValue W bd1 iphi))
                       z).
  intros surfaces. unfold surfaceArrayOnDisc, discPositions. fold u.
  rewrite Hbd. destruct (prefillDisc W u surfaces _) as [[zsum g1]|]; done.
Qed.

Lemma prefillDisc_is_Some (u : BinUtility) surfaces (g : SurfaceGrid) :
  is_Some (prefillDisc W u surfaces g) <->
  is_Some (prefillCylinder W u surfaces g).
Proof.
  split.
  - intros [[zsum g1] H]. apply prefillDisc_grid in H. by eexists.
  - intros [g1 H]. apply prefillDisc_of_cylinder in H as [zsum H]. by eexists.
Qed.

(** X9. [surfaceArrayOnCylinder] returns an array exactly when there is a
    bin along z and every entry of the list is a surface whose bin triple
    lies in the grid of 1 by [binsZ] by [binsPhi] cells; with [binsZ = 0],
    with a null entry or with a bin triple outside the grid it faults. *)
Theorem surfaceArrayOnCylinder_no_fault (surfaces : SurfaceVector)
    (R minPhi maxPhi halfZ : float) (binsPhi binsZ : nat)
    (transform : option Transform3D) :
  is_Some (surfaceArrayOnCylinder W surfaces R minPhi maxPhi halfZ binsPhi
             binsZ transform) <->
  0 < binsZ /\
  Forall (placeable W
            (cylinderUtility minPhi maxPhi halfZ binsPhi binsZ transform)
            binsZ binsPhi) surfaces.
Proof.
  destruct (surfaceArrayOnCylinder_steps R minPhi maxPhi halfZ binsPhi binsZ
              transform) as (center & ->).
  rewrite <- (construction_is_Some W _ center).
  destruct (prefillCylinder W _ surfaces _) as [g1|]; simpl;
    [|by split; intros [? ?]].
  destruct (completeBinning W _ _ surfaces g1) as [st|]; simpl;
    split; intros [? ?]; by eauto.
Qed.

(** X10. [surfaceArrayOnDisc] returns an array exactly when there is a bin
    along phi and every entry of the list is a surface whose bin triple lies
    in the grid of 1 by [binsPhi] by [binsR] cells. *)
Theorem surfaceArrayOnDisc_no_fault (surfaces : SurfaceVector)
    (minR maxR minPhi maxPhi : float) (binsR binsPhi : nat)
    (transform : option Transform3D) :
  is_Some (surfaceArrayOnDisc W surfaces minR maxR minPhi maxPhi binsR
             binsPhi transform) <->
  0 < binsPhi /\
  Forall (placeable W
            (discUtility minR maxR minPhi maxPhi binsR binsPhi transform)
            binsPhi binsR) surfaces.
Proof.
  destruct (surfaceArrayOnDisc_steps minR maxR minPhi maxPhi binsR binsPhi
              transform) as (center & ->).
  set (u := discUtility minR maxR minPhi maxPhi binsR binsPhi transform).
  destruct (prefillDisc W u surfaces _) as [[zsum g1]|] eqn:Hfill; simpl.
  - rewrite <- (construction_is_Some W u
                  (center (averageZ zsum (length surfaces)))).
    rewrite (prefillDisc_grid W u _ _ _ _ Hfill). simpl.
    destruct (completeBinning W u _ surfaces g1) as [st|]; simpl;
      split; intros [? ?]; by eauto.
  - split; [by intros [? ?]|]. intros [_ Hall]. exfalso.
    apply prefill_placeable in Hall. apply prefillDisc_is_Some in Hall.
    rewrite Hfill in Hall. by destruct Hall.
Qed.

(** X11. The array that [surfaceArrayOnCylinder] returns: its bin utility
    is the closed phi axis composed with the open z axis, its grid has 1 by
    [binsZ] by [binsPhi] cells, every surface in it is an entry of the input
    list, and the calls made are those of [registerNeighbourHood] on it. *)
Theorem surfaceArrayOnCylinder_array (surfaces : SurfaceVector)
    (R minPhi maxPhi halfZ : float) (binsPhi binsZ : nat)
    (transform : option Transform3D) (sArray : SurfaceArray)
    (calls : list RegisterCall) :
  surfaceArrayOnCylinder W surfaces R minPhi maxPhi halfZ binsPhi binsZ
    transform = Some (sArray, calls) ->
  arrayUtility sArray =
    mkBinUtility [mkBinningData closed binPhi binsPhi minPhi maxPhi;
                  mkBinningData open binZ binsZ (- halfZ)%float halfZ]
      transform /\
  calls = registerNeighbourHood W sArray /\
  (forall j2 j1 j0,
     is_Some (grid_get (objectGrid sArray) j2 j1 j0) <->
     j2 = 0 /\ j1 < binsZ /\ j0 < binsPhi) /\
  (forall j2 j1 j0 sf,
     grid_get (objectGrid sArray) j2 j1 j0 = Some (Some sf) ->
     Some sf ∈ surfaces).
Proof.
  destruct (surfaceArrayOnCylinder_steps R minPhi maxPhi halfZ binsPhi binsZ
              transform) as (center & ->).
  intros Hrun.
  destruct (prefillCylinder W _ surfaces _) as [g1|] eqn:Hfill; [|done].
  simpl in Hrun.
  destruct (completeBinning W _ _ surfaces g1) as [st|] eqn:Hcb; [|done].
  simplify_eq/=. split; [done|]. split; [done|].
  destruct (construction_grid W _ _ _ _ _ _ _ Hfill Hcb) as (Hshape & Hin).
  split; [|done]. intros j2 j1 j0. rewrite Hshape. unfold inGrid. done.
Qed.

(** X12. The array that [surfaceArrayOnDisc] returns: its bin utility is
    the open r axis, a single bin for [binsR = 1], composed with the closed
    phi axis, its grid has 1 by [binsPhi] by [binsR] cells, every surface in
    it is an entry of the input list, and the calls made are those of
    [registerNeighbourHood] on it. *)
Theorem surfaceArrayOnDisc_array (surfaces : SurfaceVector)
    (minR maxR minPhi maxPhi : float) (binsR binsPhi : nat)
    (transform : option Transform3D) (sArray : SurfaceArray)
    (calls : list RegisterCall) :
  surfaceArrayOnDisc W surfaces minR maxR minPhi maxPhi binsR binsPhi
    transform = Some (sArray, calls) ->
  arrayUtility sArray =
    mkBinUtility [mkBinningData open binR binsR minR maxR;
                  mkBinningData closed binPhi binsPhi minPhi maxPhi]
      transform /\
  calls = registerNeighbourHood W sArray /\
  (forall j2 j1 j0,
     is_Some (grid_get (objectGrid sArray) j2 j1 j0) <->
     j2 = 0 /\ j1 < binsPhi /\ j0 < binsR) /\
  (forall j2 j1 j0 sf,
     grid_get (objectGrid sArray) j2 j1 j0 = Some (Some sf) ->
     Some sf ∈ surfaces).
Proof.
  destruct (surfaceArrayOnDisc_steps minR maxR minPhi maxPhi binsR binsPhi
              transform) as (center & ->).
  set (u := discUtility minR maxR minPhi maxPhi binsR binsPhi transform).
  intros Hrun.
  destruct (prefillDisc W u surfaces _) as [[zsum g1]|] eqn:Hfill; [|done].
  simpl in Hrun. apply prefillDisc_grid in Hfill.
  destruct (completeBinning W u _ surfaces g1) as [st|] eqn:Hcb; [|done].
  simplify_eq/=. split; [|split; [done|]].
  - unfold u, discUtility, BinUtilityOfData, BinningData0, BinUtility1, bu_add.
    by destruct (decide (binsR = 1)) as [->|].
  - destruct (construction_grid W _ _ _ _ _ _ _ Hfill Hcb) as (Hshape & Hin).
    split; [|done]. intros j2 j1 j0. rewrite Hshape. unfold inGrid. done.
Qed.

(** X13. [surfaceArrayOnCylinder] on as many surfaces as bins, with
    pairwise distinct bin triples: the returned grid is the grid of the
    placement, no bin of it is empty and every surface is in the bin of its
    bin triple. *)
Theorem surfaceArrayOnCylinder_one_to_one (surfaces : SurfaceVector)
    (R minPhi maxPhi halfZ : float) (binsPhi binsZ : nat)
    (transform : option Transform3D) (sArray : SurfaceArray)
    (calls : list RegisterCall) :
  let u := cylinderUtility minPhi maxPhi halfZ binsPhi binsZ transform in
  surfaceArrayOnCylinder W surfaces R minPhi maxPhi halfZ binsPhi binsZ
    transform = Some (sArray, calls) ->
  NoDup (ptrTriple W u <$> surfaces) ->
  length surfaces = binsZ * binsPhi ->
  prefillCylinder W u surfaces [replicate binsZ (replicate binsPhi nullptr)]
    = Some (objectGrid sArray) /\
  gridFilled (objectGrid sArray) /\
  forall sf, Some sf ∈ surfaces ->
    grid_at (objectGrid sArray) (tripleOf W u sf) = Some (Some sf).
Proof.
  intros u.
  destruct (surfaceArrayOnCylinder_steps R minPhi maxPhi halfZ binsPhi binsZ
              transform) as (center & ->). fold u.
  intros Hrun Hnd Hlen.
  destruct (prefillCylinder W u surfaces _) as [g1|] eqn:Hfill; [|done].
  simpl in Hrun.
  destruct (completeBinning W u _ surfaces g1) as [st|] eqn:Hcb; [|done].
  simplify_eq/=.
  destruct (proj1 (completeBinning_is_Some W u _ surfaces g1)
              (ex_intro _ _ Hcb)) as (row0 & Hrow0 & _).
  assert (0 < binsZ) as Hz.
  { apply lookup_lt_Some in Hrow0. by rewrite matrix_length in Hrow0. }
  destruct (matrix_row0 center binsZ binsPhi Hz) as (row0' & Hrow0' & Hl).
  clear Hrow0.
  rewrite (completeBinning_fast W u _ _ _ _ Hrow0') in Hcb.
  - injection Hcb as <-. simpl. split; [done|].
    by apply (one_to_one_placement W u binsZ binsPhi).
  - unfold nGridPoints. rewrite matrix_length, Hl, size_t_mul_size_t.
    by rewrite Hlen.
Qed.

(** X14. [surfaceArrayOnDisc] on as many surfaces as bins, with pairwise
    distinct bin triples: no bin of the returned grid is empty and every
    surface is in the bin of its bin triple. *)
Theorem surfaceArrayOnDisc_one_to_one (surfaces : SurfaceVector)
    (minR maxR minPhi maxPhi : float) (binsR binsPhi : nat)
    (transform : option Transform3D) (sArray : SurfaceArray)
    (calls : list RegisterCall) :
  let u := discUtility minR maxR minPhi maxPhi binsR binsPhi transform in
  surfaceArrayOnDisc W surfaces minR maxR minPhi maxPhi binsR binsPhi
    transform = Some (sArray, calls) ->
  NoDup (ptrTriple W u <$> surfaces) ->
  length surfaces = binsPhi * binsR ->
  gridFilled (objectGrid sArray) /\
  forall sf, Some sf ∈ surfaces ->
    grid_at (objectGrid sArray) (tripleOf W u sf) = Some (Some sf).
Proof.
  intros u.
  destruct (surfaceArrayOnDisc_steps minR maxR minPhi maxPhi binsR binsPhi
              transform) as (center & ->). fold u.
  intros Hrun Hnd Hlen.
  destruct (prefillDisc W u surfaces _) as [[zsum g1]|] eqn:Hfill; [|done].
  simpl in Hrun. apply prefillDisc_grid in Hfill.
  destruct (completeBinning W u _ surfaces g1) as [st|] eqn:Hcb; [|done].
  simplify_eq/=.
  destruct (proj1 (completeBinning_is_Some W u _ surfaces g1)
              (ex_intro _ _ Hcb)) as (row0 & Hrow0 & _).
  assert (0 < binsPhi) as Hz.
  { apply lookup_lt_Some in Hrow0. by rewrite matrix_length in Hrow0. }
  destruct (matrix_row0 (center (averageZ zsum (length surfaces)))
              binsPhi binsR Hz) as (row0' & Hrow0' & Hl).
  clear Hrow0.
  rewrite (completeBinning_fast W u _ _ _ _ Hrow0') in Hcb.
  - injection Hcb as <-. simpl.
    by apply (one_to_one_placement W u binsPhi binsR).
  - unfold nGridPoints. rewrite matrix_length, Hl, size_t_mul_size_t.
    by rewrite Hlen.
Qed.

End ConstructionTheorems.

(** ** The further properties on concrete detectors *)
Section ConcreteExtras.

Import Example.
Local Open Scope float_scope.

Local Ltac run := vm_compute; reflexivity.

Lemma completeBinning_slow_path_cost_witness :
  cb_binCompleted completed16 = (length positions16 * length row16)%nat /\
  cb_testPaths completed16 =
    (length positions16 * length row16 * length surfaces8)%nat.
Proof.
  apply (completeBinning_slow_path_cost world8 (utility 8 2) positions16
           row16 surfaces8 placed16 completed16);
    [run|by vm_compute|run].
Defined.

Lemma completeBinning_frame_witness :
  (forall j2 j1 j0,
     is_Some (grid_get (cb_grid completed16) j2 j1 j0) <->
     is_Some (grid_get placed16 j2 j1 j0)) /\
  (forall j2 j1 j0,
     j2 <> 0%nat \/ (length positions16 <= j1)%nat \/
       (length row16 <= j0)%nat ->
     grid_get (cb_grid completed16) j2 j1 j0 = grid_get placed16 j2 j1 j0).
Proof.
  apply (completeBinning_frame world8 (utility 8 2) positions16 row16
           surfaces8 placed16 completed16); run.
Defined.

Lemma completeBinning_provenance_witness :
  exists before,
    grid_get placed16 0 0 0 = Some before /\
    (is_Some before -> is_Some (Some 0%nat)) /\
    (Some 0%nat = before \/
     exists sf, Some 0%nat = Some sf /\ Some sf ∈ surfaces8).
Proof.
  apply (completeBinning_provenance world8 (utility 8 2) positions16
           surfaces8 placed16 completed16 0 0 0 (Some 0%nat)); run.
Defined.

Lemma completeBinning_idempotent_witness :
  exists st',
    completeBinning world8 (utility 8 2) positions16 surfaces8
      (cb_grid completed16) = Some st' /\
    forall j2 j1 j0,
      grid_get (cb_grid st') j2 j1 j0 =
      grid_get (cb_grid completed16) j2 j1 j0.
Proof.
  apply (completeBinning_idempotent world8 (utility 8 2) positions16
           surfaces8 placed16 completed16); run.
Defined.

Lemma registerNeighbourHood_call_origin_witness :
  exists io2 io1 io0 b,
    grid_get (objectGrid array8) io2 io1 io0 = Some (Some b) /\
    associatedDetectorElement world8 b = Some 100%nat /\
    forall e, e ∈ [101%nat] ->
      exists n, Some n ∈ objectCluster world8 array8 (io0, io1, io2) /\
        n <> b /\ associatedDetectorElement world8 n = Some e.
Proof.
  apply (registerNeighbourHood_call_origin world8 array8
           (mkRegisterCall 100 [101%nat])).
  apply list_elem_of_lookup. exists 2%nat. run.
Defined.

Lemma surfaceArrayOnCylinder_array_witness :
  exists sArray calls,
    surfaceArrayOnCylinder world8 surfaces8 10 (- pi) pi 5 8 1 None
      = Some (sArray, calls) /\
    arrayUtility sArray =
      mkBinUtility [mkBinningData closed binPhi 8 (- pi) pi;
                    mkBinningData open binZ 1 (- 5) 5] None /\
    calls = registerNeighbourHood world8 sArray /\
    (forall j2 j1 j0,
       is_Some (grid_get (objectGrid sArray) j2 j1 j0) <->
       j2 = 0%nat /\ (j1 < 1)%nat /\ (j0 < 8)%nat) /\
    (forall j2 j1 j0 sf,
       grid_get (objectGrid sArray) j2 j1 j0 = Some (Some sf) ->
       Some sf ∈ surfaces8).
Proof.
  eexists _, _. split; [run|].
  apply (surfaceArrayOnCylinder_array world8 surfaces8 10 (- pi) pi 5 8 1
           None). run.
Defined.

Lemma surfaceArrayOnDisc_array_witness :
  exists sArray calls,
    surfaceArrayOnDisc world8 surfaces8 5 15 (- pi) pi 1 8 None
      = Some (sArray, calls) /\
    arrayUtility sArray =
      mkBinUtility [mkBinningData open binR 1 5 15;
                    mkBinningData closed binPhi 8 (- pi) pi] None /\
    calls = registerNeighbourHood world8 sArray /\
    (forall j2 j1 j0,
       is_Some (grid_get (objectGrid sArray) j2 j1 j0) <->
       j2 = 0%nat /\ (j1 < 8)%nat /\ (j0 < 1)%nat) /\
    (forall j2 j1 j0 sf,
       grid_get (objectGrid sArray) j2 j1 j0 = Some (Some sf) ->
       Some sf ∈ surfaces8).
Proof.
  eexists _, _. split; [run|].
  apply (surfaceArrayOnDisc_array world8 surfaces8 5 15 (- pi) pi 1 8 None).
  run.
Defined.

Lemma surfaceArrayOnCylinder_one_to_one_witness :
  exists sArray calls,
    surfaceArrayOnCylinder world8 surfaces8 10 (- pi) pi 5 8 1 None
      = Some (sArray, calls) /\
    prefillCylinder world8 (utility 8 1) surfaces8
      [replicate 1 (replicate 8 nullptr)] = Some (objectGrid sArray) /\
    gridFilled (objectGrid sArray) /\
    forall sf, Some sf ∈ surfaces8 ->
      grid_at (objectGrid sArray) (tripleOf world8 (utility 8 1) sf)
        = Some (Some sf).
Proof.
  eexists _, _. split; [run|].
  eapply (surfaceArrayOnCylinder_one_to_one world8 surfaces8 10 (- pi) pi 5
            8 1 None); [run| |reflexivity].
  apply (bool_decide_unpack _). vm_compute. exact I.
Defined.

Lemma surfaceArrayOnDisc_one_to_one_witness :
  exists sArray calls,
    surfaceArrayOnDisc world8 surfaces8 5 15 (- pi) pi 1 8 None
      = Some (sArray, calls) /\
    gridFilled (objectGrid sArray) /\
    forall sf, Some sf ∈ surfaces8 ->
      grid_at (objectGrid sArray)
        (tripleOf world8 (discUtility 5 15 (- pi) pi 1 8 None) sf)
        = Some (Some sf).
Proof.
  eexists _, _. split; [run|].
  eapply (surfaceArrayOnDisc_one_to_one world8 surfaces8 5 15 (- pi) pi 1 8
            None); [run| |reflexivity].
  apply (bool_decide_unpack _). vm_compute. exact I.
Defined.

End ConcreteExtras.

(** * Neighbours, nearest fill and placement *)

(** ** What is passed to an element *)
Section PassedTo.

Variable W : World.
Implicit Types (sArray : SurfaceArray) (calls : list RegisterCall).











End PassedTo.

Section NearestAndNeighbours.

Import Example.
Local Open Scope float_scope.

Local Ltac run := vm_compute; reflexivity.



(** Against C5: one surface at z = 2e11 on a cylinder with 2 by 1 bins.
    Placement stores it in bin 0; [completeBinning] takes the slow path,
    evaluates the two distances, finds the distance of the surface to the
    center of bin 1 not below 10e10, and leaves bin 1, which was empty,
    without a surface, though the list is not empty. *)
Lemma far_surface_leaves_cell_empty :
  exists sGrid1 st center,
    prefillCylinder worldAway (utility 2 1) [Some 0%nat]
      [replicate 1 (replicate 2 nullptr)] = Some sGrid1 /\
    grid_get sGrid1 0 0 1 = Some nullptr /\
    completeBinning worldAway (utility 2 1) positions2 [Some 0%nat] sGrid1
      = Some st /\
    cb_testPaths st = 2%nat /\
    v3_get positions2 0 1 = Some center /\
    (distance worldAway center 0 <? 100000000000) = false /\
    grid_get (cb_grid st) 0 0 1 = Some nullptr.
Proof.
  eexists _, _, _. split; [run|]. split; [run|]. split; [run|].
  split; [run|]. split; [run|]. split; run.
Qed.

(** C5, as amended. For a cell that was empty before [completeBinning]:
    a surface that the cell holds afterwards lies at a distance below 10e10
    from the center of the cell and is the first closest surface of the
    input list, so that no input surface is nearer and no earlier one is as
    near; and the cell does hold a surface afterwards when it lies in the
    matrix extents, the number of cells differs from the number of surfaces
    and some input surface lies at a distance below 10e10 from its
    center. *)
Theorem completeBinning_first_nearest (W : World) (u : BinUtility)
    (v3Matrix : V3Matrix) (sVector : SurfaceVector) (sGrid : SurfaceGrid)
    (st : CBState) (io1 io0 : nat) (center : Vector3D) :
  completeBinning W u v3Matrix sVector sGrid = Some st ->
  v3_get v3Matrix io1 io0 = Some center ->
  grid_get sGrid 0 io1 io0 = Some nullptr ->
  (forall sf,
     grid_get (cb_grid st) 0 io1 io0 = Some (Some sf) ->
     (distance W center sf <? 100000000000)%float = true /\
     exists i, firstClosest W center sVector i sf) /\
  (forall row0 sf,
     v3Matrix !! 0%nat = Some row0 -> (io0 < length row0)%nat ->
     nGridPoints v3Matrix row0 <> size_t (length sVector) ->
     Some sf ∈ sVector ->
     (distance W center sf <? 100000000000)%float = true ->
     exists sf', grid_get (cb_grid st) 0 io1 io0 = Some (Some sf')).
Proof.
  intros Hrun Hpos Hbefore. split.
  - intros sf Hafter.
    destruct (v3Matrix !! 0%nat) as [row0|] eqn:Hrow0;
      [|by unfold completeBinning in Hrun; rewrite Hrow0 in Hrun].
    destruct (decide (nGridPoints v3Matrix row0 = size_t (length sVector)))
      as [Hfast|Hslow].
    { rewrite (completeBinning_fast W u _ _ _ _ Hrow0 Hfast) in Hrun.
      simplify_eq/=. }
    destruct (completeBinning_slow_spec W u _ _ _ _ _ Hrow0 Hslow Hrun)
      as (Hout & Hframe).
    destruct (decide (io1 < length v3Matrix /\ io0 < length row0)%nat)
      as [[H1 H0]|Hnot].
    + destruct (Hout io1 io0 H1 H0)
        as (sp & b & a & m & Hsp & Hb & Ha & Hsel).
      simplify_eq.
      destruct Hsel as [(? & _)|(i & x & [= <-] & _ & Hlt & Hnear)]; [done|].
      rewrite testPathOf_distance, minPath0_value in Hlt.
      split; [done|]. exists i. by apply firstNearest_closest.
    + rewrite Hframe in Hafter by lia. congruence.
  - intros row0 sf Hrow0 H0 Hslow Hin Hlt.
    destruct (completeBinning_cell W u _ _ _ _ _ _ _ _ Hrun Hbefore)
      as (after & row0' & Hrow0' & Hafter & _ & Hnear).
    rewrite Hrow0 in Hrow0'. simplify_eq.
    destruct (Hnear center sf) as [sf' ->]; auto. by exists sf'.
Qed.

Lemma completeBinning_first_nearest_witness :
  exists center,
    v3_get positions16 0 0 = Some center /\
    grid_get placed16 0 0 0 = Some nullptr /\
    (forall sf,
       grid_get (cb_grid completed16) 0 0 0 = Some (Some sf) ->
       (distance world8 center sf <? 100000000000) = true /\
       exists i, firstClosest world8 center surfaces8 i sf) /\
    (forall row0 sf,
       positions16 !! 0%nat = Some row0 -> (0 < length row0)%nat ->
       nGridPoints positions16 row0 <> size_t (length surfaces8) ->
       Some sf ∈ surfaces8 ->
       (distance world8 center sf <? 100000000000) = true ->
       exists sf', grid_get (cb_grid completed16) 0 0 0 = Some (Some sf')).
Proof.
  eexists. split; [run|]. split; [run|].
  eapply (completeBinning_first_nearest world8 (utility 8 2) positions16
            surfaces8 placed16 completed16 0 0); [run|run|run].
Defined.

Lemma completeBinning_slow_path_cell_witness :
  exists center before after,
    v3_get positions16 0 0 = Some center /\
    grid_get placed16 0 0 0 = Some before /\
    grid_get (cb_grid completed16) 0 0 0 = Some after /\
    ((after = before /\
      forall sf, Some sf ∈ surfaces8 ->
        (distance world8 center sf <? 100000000000) = false) \/
     (exists i sf, after = Some sf /\
        (distance world8 center sf <? 100000000000) = true /\
        firstClosest world8 center surfaces8 i sf)).
Proof.
  apply (completeBinning_slow_path_cell world8 (utility 8 2) positions16
           row16 surfaces8 placed16 completed16 0 0);
    [run|by vm_compute|run|vm_compute; lia|vm_compute; lia].
Defined.

(** C6. On a list of surfaces whose bin triples, computed by the bin
    utility from their binning positions for [binR], lie in the grid, the
    placement loops of the cylinder and of the disc return the same grid:
    a surface of the list that no later surface of the list shares its bin
    triple with is stored in the cell of its bin triple, and every cell
    that holds a surface holds the last surface of the list whose bin
    triple is that cell. *)
Theorem placement_last_wins (W : World) (u : BinUtility)
    (surfaces : SurfaceVector) (n1 n0 : nat) :
  Forall (placeable W u n1 n0) surfaces ->
  exists g zsum,
    prefillCylinder W u surfaces [replicate n1 (replicate n0 nullptr)]
      = Some g /\
    prefillDisc W u surfaces [replicate n1 (replicate n0 nullptr)]
      = Some (zsum, g) /\
    (forall l1 sf l2,
       surfaces = l1 ++ Some sf :: l2 ->
       (forall sf', Some sf' ∈ l2 -> tripleOf W u sf' <> tripleOf W u sf) ->
       grid_at g (tripleOf W u sf) = Some (Some sf)) /\
    (forall i2 i1 i0 sf,
       grid_get g i2 i1 i0 = Some (Some sf) ->
       tripleOf W u sf = (i0, i1, i2) /\
       exists l1 l2,
         surfaces = l1 ++ Some sf :: l2 /\
         forall sf', Some sf' ∈ l2 -> tripleOf W u sf' <> (i0, i1, i2)).
Proof.
  intros Hall.
  destruct (proj2 (prefill_placeable W u surfaces n1 n0) Hall) as [g Hfill].
  destruct (prefillDisc_of_cylinder W u _ _ _ Hfill) as [zsum Hdisc].
  exists g, zsum. split; [done|]. split; [done|]. split.
  - intros l1 sf l2 Heq Hlast. by eapply prefill_last.
  - intros i2 i1 i0 sf Hget.
    destruct (prefill_origin W u _ _ _ _ _ _ _ Hfill Hget)
      as [Hnull|(sf0 & [= <-] & Hin & Ht)].
    { by apply replicate_grid_null in Hnull. }
    split; [done|].
    destruct (last_such (placedAt W u (i0, i1, i2)) surfaces)
      as (l1 & [x|] & l2 & -> & Hx & Hlast); [by exists (Some sf)| |done].
    simpl in Hx.
    pose proof (prefill_last W u _ _ _ l1 x l2 Hfill eq_refl) as Hcell.
    rewrite Hx in Hcell. unfold grid_at in Hcell. simpl in Hcell.
    rewrite Hcell in Hget.
    + simplify_eq. exists l1, l2. split; [done|].
      intros sf' Hin' Ht'. by apply (Hlast _ Hin').
    + intros sf' Hin' Ht'. by apply (Hlast _ Hin').
Qed.

Local Ltac placeable8 :=
  unfold surfaces8; cbn [fmap list_fmap seq];
  repeat (apply List.Forall_cons;
          [eexists; split; [reflexivity|vm_compute; lia]|]);
  apply List.Forall_nil.

(** The eight surfaces on 2 by 1 bins of a cylinder and on 1 by 2 bins of a
    disc: surfaces 0 to 3 fall into one bin and surfaces 4 to 7 into the
    other, and the bins end with surfaces 3 and 7. *)
Lemma placement_last_wins_witness :
  (exists zsum,
     prefillCylinder world8 (utility 2 1) surfaces8
       [replicate 1 (replicate 2 nullptr)]
       = Some [[[Some 3; Some 7]]]%nat /\
     prefillDisc world8 (utility 2 1) surfaces8
       [replicate 1 (replicate 2 nullptr)]
       = Some (zsum, [[[Some 3; Some 7]]]%nat)) /\
  (exists zsum,
     prefillCylinder world8 (discUtility 5 15 (- pi) pi 1 2 None) surfaces8
       [replicate 2 (replicate 1 nullptr)]
       = Some [[[Some 3]; [Some 7]]]%nat /\
     prefillDisc world8 (discUtility 5 15 (- pi) pi 1 2 None) surfaces8
       [replicate 2 (replicate 1 nullptr)]
       = Some (zsum, [[[Some 3]; [Some 7]]]%nat)).
Proof.
  split.
  - destruct (placement_last_wins world8 (utility 2 1) surfaces8 1 2)
      as (g & zsum & Hc & Hd & _); [placeable8|].
    assert (g = [[[Some 3; Some 7]]]%nat) as ->.
    { vm_compute in Hc. by injection Hc as <-. }
    exists zsum. split; [run|exact Hd].
  - destruct (placement_last_wins world8
                (discUtility 5 15 (- pi) pi 1 2 None) surfaces8 2 1)
      as (g & zsum & Hc & Hd & _); [placeable8|].
    assert (g = [[[Some 3]; [Some 7]]]%nat) as ->.
    { vm_compute in Hc. by injection Hc as <-. }
    exists zsum. split; [run|exact Hd].
Defined.

(** C8, as amended. When, for every bin that holds a surface with an
    element, no other surface of the cluster of the bin has that element,
    no element is passed to [registerNeighbours] in its own list, and no
    element ends as its own registered neighbour. *)
Theorem no_self_neighbour (W : World) (sArray : SurfaceArray) :
  (forall io2 io1 io0 b n e,
     grid_get (objectGrid sArray) io2 io1 io0 = Some (Some b) ->
     associatedDetectorElement W b = Some e ->
     Some n ∈ objectCluster W sArray (io0, io1, io2) -> n <> b ->
     associatedDetectorElement W n <> Some e) ->
  (forall c, c ∈ registerNeighbourHood W sArray ->
     rc_element c ∉ rc_neighbours c) /\
  (forall e l,
     registered (registerNeighbourHood W sArray) !! e = Some l -> e ∉ l).
Proof.
  intros Hlocal.
  assert (forall c, c ∈ registerNeighbourHood W sArray ->
            rc_element c ∉ rc_neighbours c) as Hcall.
  { intros c Hc Hself.
    apply elem_of_registerNeighbourHood in Hc
      as (io2 & io1 & io0 & bSurface & Hget & Hc).
    apply elem_of_registerCell in Hc as (b & n & -> & Hb & Hn & Hl).
    rewrite Hl in Hself.
    apply elem_of_neighbourElementsOf in Hself as (n' & -> & Hne & Hel).
    by apply (Hlocal io2 io1 io0 b n' (rc_element c)). }
  split; [done|].
  intros e l (c & Hc & <- & <-)%registered_lookup. by apply Hcall.
Qed.

(** Surfaces [k] and [k + 4] share an element, and no cluster holds both. *)
Lemma no_self_neighbour_witness :
  associatedDetectorElement worldOpp 0 = associatedDetectorElement worldOpp 4
  /\
  (forall c, c ∈ registerNeighbourHood worldOpp array8 ->
     rc_element c ∉ rc_neighbours c) /\
  (forall e l,
     registered (registerNeighbourHood worldOpp array8) !! e = Some l ->
     e ∉ l).
Proof.
  split; [reflexivity|].
  apply (no_self_neighbour worldOpp array8).
  intros io2 io1 io0 b n e Hget Hb Hn Hne.
  destruct io2 as [|io2]; [|by destruct io2].
  destruct io1 as [|io1]; [|by destruct io1].
  do 8 (destruct io0 as [|io0];
        [vm_compute in Hget; injection Hget as <-;
         vm_compute in Hb; injection Hb as <-;
         apply list_elem_of_In in Hn; vm_compute in Hn;
         destruct Hn as [Hn|[Hn|[Hn|[]]]]; injection Hn as <-;
         first [by destruct Hne|vm_compute; discriminate]|]).
  by destruct io0.
Defined.

End NearestAndNeighbours.
